(** * Open/Closed example: specifications, conjunction and filters

    A shallow embedding of [OpenClosedPrinciple/OpenClosed.cpp].

    The C++ program works on [Product *] pointers and on
    [Specification<Product> &] references, and [AndSpecification] keeps
    references to its two operands.  The embedding therefore keeps an
    explicit memory: products and specification objects live at
    locations, a pointer or reference is a location, and every method is
    a computation over that memory.  Using a location that holds no
    object (a null or dangling pointer, a reference to a destroyed
    operand) is undefined behaviour and is reported as such.

    [Specification<T>] is abstract; its objects are those of the three
    classes the program derives from it, at [T = Product]. *)

From stdpp Require Import base option list gmap strings.
From stdpp Require Import numbers pretty sorting.

(** ** Data model *)

(** [enum class Color] *)
Inductive Color : Set := red | green | blue.

(** [enum class Size] *)
Inductive Size : Set := small | medium | large.

#[global] Instance Color_eq_dec : EqDecision Color.
Proof. solve_decision. Defined.

#[global] Instance Size_eq_dec : EqDecision Size.
Proof. solve_decision. Defined.

(** [struct Product] *)
Record Product : Set := mkProduct {
  name : string;
  color : Color;
  size : Size
}.

(** A [Product *]; a [Specification<Product> &]; the place of a
    [std::vector<Product *>] variable of a caller. *)
Abbreviation ptr := nat (only parsing).
Abbreviation ref := nat (only parsing).

(** The objects of the three classes that derive from
    [Specification<Product>].  [ColorSpecification] and
    [SizeSpecification] store the value they compare with,
    [AndSpecification] stores the two references [first] and [second]. *)
Inductive SpecificationObj : Set :=
| ColorSpecification (color : Color)
| SizeSpecification (size : Size)
| AndSpecification (first second : ref).

#[global] Instance SpecificationObj_eq_dec : EqDecision SpecificationObj.
Proof. solve_decision. Defined.

(** The memory a call can reach: the products behind the pointers, the
    specification objects behind the references, and the vectors of
    pointers that callers own. *)
Record Memory : Type := mkMemory {
  products : gmap nat Product;
  specifications : gmap nat SpecificationObj;
  vectors : gmap nat (list nat)
}.

(** A declaration puts an object at the location of the declared
    variable; the end of its lifetime removes it again. *)
Definition empty_memory : Memory := mkMemory ∅ ∅ ∅.

Definition declare_product (p : ptr) (x : Product) (m : Memory) : Memory :=
  mkMemory (<[p:=x]> (products m)) (specifications m) (vectors m).

Definition declare_spec (r : ref) (o : SpecificationObj) (m : Memory) : Memory :=
  mkMemory (products m) (<[r:=o]> (specifications m)) (vectors m).

Definition declare_vector (v : nat) (l : list ptr) (m : Memory) : Memory :=
  mkMemory (products m) (specifications m) (<[v:=l]> (vectors m)).

Definition destroy_spec (r : ref) (m : Memory) : Memory :=
  mkMemory (products m) (delete r (specifications m)) (vectors m).

(** ** Computations over the memory *)

Inductive outcome (A : Type) : Type :=
| Ret (a : A)      (* normal return *)
| Undefined        (* a location without an object was used *)
| OutOfFuel.       (* the bound on nested virtual calls was reached *)

Arguments Ret {A} a.
Arguments Undefined {A}.
Arguments OutOfFuel {A}.

Definition M (A : Type) : Type := Memory → outcome (A * Memory).

#[global] Instance M_ret : MRet M := λ A a m, Ret (a, m).

#[global] Instance M_bind : MBind M := λ A B f c m,
  match c m with
  | Ret (a, m') => f a m'
  | Undefined => Undefined
  | OutOfFuel => OutOfFuel
  end.

Definition out_of_fuel {A} : M A := λ _, OutOfFuel.

(** [*p] for a [Product *p] *)
Definition deref (p : ptr) : M Product := λ m,
  match products m !! p with
  | Some x => Ret (x, m)
  | None => Undefined
  end.

(** [p->field] *)
Definition load {A} (p : ptr) (field : Product → A) : M A :=
  x ← deref p; mret (field x).

(** The object a [Specification<Product> &] refers to. *)
Definition load_spec (r : ref) : M SpecificationObj := λ m,
  match specifications m !! r with
  | Some o => Ret (o, m)
  | None => Undefined
  end.

(** Copy of a caller's vector, as made for a by-value parameter. *)
Definition load_vector (v : nat) : M (list ptr) := λ m,
  match vectors m !! v with
  | Some l => Ret (l, m)
  | None => Undefined
  end.

(** [v.push_back(x)] on a local vector *)
Definition push_back {A} (v : list A) (x : A) : list A := v ++ [x].

(** ** The specifications *)

Section Methods.
(** [spec.is_satisfied(item)] through a reference: the virtual call. *)
Variable call : ref → ptr → M bool.

(** [ColorSpecification::is_satisfied]: [return item->color == color;] *)
Definition ColorSpecification_is_satisfied (color0 : Color) (item : ptr) : M bool :=
  c ← load item color; mret (bool_decide (c = color0)).

(** [SizeSpecification::is_satisfied]: [return item->size == size;] *)
Definition SizeSpecification_is_satisfied (size0 : Size) (item : ptr) : M bool :=
  s ← load item size; mret (bool_decide (s = size0)).

(** [AndSpecification::is_satisfied]:
    [return first.is_satisfied(item) && second.is_satisfied(item);] *)
Definition AndSpecification_is_satisfied (first second : ref) (item : ptr) : M bool :=
  call first item ≫= λ b : bool,
  if b then call second item else mret false.

(** The override selected by the dynamic type of [this]. *)
Definition dispatch (this : SpecificationObj) (item : ptr) : M bool :=
  match this with
  | ColorSpecification color0 => ColorSpecification_is_satisfied color0 item
  | SizeSpecification size0 => SizeSpecification_is_satisfied size0 item
  | AndSpecification first second => AndSpecification_is_satisfied first second item
  end.
End Methods.

(** [spec.is_satisfied(item)] for a reference [spec]; [fuel] bounds the
    nesting of virtual calls. *)
Fixpoint is_satisfied (fuel : nat) (spec : ref) (item : ptr) : M bool :=
  match fuel with
  | 0 => out_of_fuel
  | S fuel' => this ← load_spec spec; dispatch (is_satisfied fuel') this item
  end.

(** [tmp.is_satisfied(item)] for an object that is not (yet) in memory,
    such as the value returned by [operator&&]. *)
Definition is_satisfied_obj (fuel : nat) (this : SpecificationObj) (item : ptr) : M bool :=
  dispatch (is_satisfied fuel) this item.

(** [Specification<T>::operator&&(Specification<T> &&other)]:
    [return AndSpecification<T>( *this, other);] *)
Definition Specification_operator_and (this other : ref) : SpecificationObj :=
  AndSpecification this other.

(** The free [operator&&(Specification<T> &first, Specification<T> &second)]:
    [return {first, second};] *)
Definition operator_and (first second : ref) : SpecificationObj :=
  AndSpecification first second.

(** ** The filters *)

Module BetterFilter.
(** The loop of [BetterFilter::filter]:
    [for (auto &item : items) if (spec.is_satisfied(item)) result.push_back(item);] *)
Fixpoint filter_loop (fuel : nat) (items : list ptr) (spec : ref)
    (result : list ptr) : M (list ptr) :=
  match items with
  | [] => mret result
  | item :: items' =>
      is_satisfied fuel spec item ≫= λ b : bool,
      filter_loop fuel items' spec (if b then push_back result item else result)
  end.

(** [BetterFilter::filter(std::vector<Product *> items, Specification<Product> &spec)] *)
Definition filter (fuel : nat) (items : list ptr) (spec : ref) : M (list ptr) :=
  filter_loop fuel items spec [].

(** A call [bf.filter(v, spec)] whose first argument is the caller's
    vector variable at [v]: the by-value parameter [items] is a copy. *)
Definition call_filter (fuel : nat) (v : nat) (spec : ref) : M (list ptr) :=
  items ← load_vector v; filter fuel items spec.
End BetterFilter.

Module ProductFilter.
(** [for (auto &i : items) if (i->color == color) result.push_back(i);] *)
Fixpoint by_color_loop (items : list ptr) (color0 : Color)
    (result : list ptr) : M (list ptr) :=
  match items with
  | [] => mret result
  | i :: items' =>
      load i color ≫= λ c : Color,
      by_color_loop items' color0
        (if bool_decide (c = color0) then push_back result i else result)
  end.

(** [ProductFilter::by_color(Items items, Color color)] *)
Definition by_color (items : list ptr) (color0 : Color) : M (list ptr) :=
  by_color_loop items color0 [].

(** [for (auto &i : items) if (i->size == size) result.push_back(i);] *)
Fixpoint by_size_loop (items : list ptr) (size0 : Size)
    (result : list ptr) : M (list ptr) :=
  match items with
  | [] => mret result
  | i :: items' =>
      load i size ≫= λ s : Size,
      by_size_loop items' size0
        (if bool_decide (s = size0) then push_back result i else result)
  end.

(** [ProductFilter::by_size(Items items, Size size)] *)
Definition by_size (items : list ptr) (size0 : Size) : M (list ptr) :=
  by_size_loop items size0 [].

(** [i->size == size && i->color == color]: the size is read first and
    the color only when the size matches. *)
Definition size_and_color_match (i : ptr) (color0 : Color) (size0 : Size) : M bool :=
  load i size ≫= λ s : Size,
  if bool_decide (s = size0)
  then load i color ≫= λ c : Color, mret (bool_decide (c = color0))
  else mret false.

(** [for (auto &i : items) if (i->size == size && i->color == color) result.push_back(i);] *)
Fixpoint by_size_and_color_loop (items : list ptr) (color0 : Color) (size0 : Size)
    (result : list ptr) : M (list ptr) :=
  match items with
  | [] => mret result
  | i :: items' =>
      size_and_color_match i color0 size0 ≫= λ b : bool,
      by_size_and_color_loop items' color0 size0
        (if b then push_back result i else result)
  end.

(** [ProductFilter::by_size_and_color(Items items, Color color, Size size)] *)
Definition by_size_and_color (items : list ptr) (color0 : Color) (size0 : Size)
    : M (list ptr) :=
  by_size_and_color_loop items color0 size0 [].
End ProductFilter.

(** ** The objects that [main] declares *)

Module main.
(** Locations of the variables, in declaration order.  The variables
    [green] and [large] are [spec_green] and [spec_large] here, apart
    from the enumerators of the same names. *)
Definition apple : ptr := 1.
Definition tree : ptr := 2.
Definition house : ptr := 3.
Definition items : nat := 1.
Definition spec_green : ref := 1.
Definition spec_large : ref := 2.
Definition green_and_large : ref := 3.
Definition spec : ref := 4.
Definition colorSpec : ref := 5.
Definition sizeSpec : ref := 6.
Definition spec4 : ref := 7.

(** Up to [ColorSpecification green(Color::green);] *)
Definition memory_green : Memory :=
  declare_spec spec_green (ColorSpecification green)
    (declare_vector items [apple; tree; house]
      (declare_product house (mkProduct "House" blue large)
        (declare_product tree (mkProduct "Tree" green large)
          (declare_product apple (mkProduct "Apple" green small) empty_memory)))).

(** Up to [AndSpecification<Product> green_and_large(green, large);] *)
Definition memory_green_and_large : Memory :=
  declare_spec green_and_large (AndSpecification spec_green spec_large)
    (declare_spec spec_large (SizeSpecification large) memory_green).

(** Up to [auto spec = green && large;]: both operands are lvalues, so
    the free [operator&&] is selected. *)
Definition memory_spec : Memory :=
  declare_spec spec (operator_and spec_green spec_large) memory_green_and_large.

(** Up to [auto spec4 = colorSpec && sizeSpec;] *)
Definition memory_spec4 : Memory :=
  declare_spec spec4 (operator_and colorSpec sizeSpec)
    (declare_spec sizeSpec (SizeSpecification large)
      (declare_spec colorSpec (ColorSpecification blue) memory_spec)).

(** [item->name] for every item of a result, as the printing loops read it. *)
Fixpoint names (result : list ptr) : M (list string) :=
  match result with
  | [] => mret []
  | item :: result' =>
      load item name ≫= λ n : string,
      names result' ≫= λ ns : list string, mret (n :: ns)
  end.
End main.

(** Specifications nested in both ways over the products of [main]:
    [left] is [(p && q) && r] and [right] is [p && (q && r)]. *)
Module nesting.
Definition p : ref := 1.
Definition q : ref := 2.
Definition r : ref := 3.
Definition pq : ref := 4.
Definition qr : ref := 5.
Definition left : ref := 6.
Definition right : ref := 7.

Definition memory : Memory :=
  declare_spec right (AndSpecification p qr)
    (declare_spec left (AndSpecification pq r)
      (declare_spec qr (AndSpecification q r)
        (declare_spec pq (AndSpecification p q)
          (declare_spec r (ColorSpecification green)
            (declare_spec q (SizeSpecification large) main.memory_green))))).
End nesting.

(** [auto s = green && SizeSpecification(Size::large);] after the objects
    of [main]: the right operand is a temporary, so the member
    [operator&&] is selected and [other] is bound to the temporary, which
    is destroyed at the end of the declaration. *)
Module temporary.
Definition other : ref := 8.
Definition s : ref := 9.

Definition memory_during : Memory :=
  declare_spec s (Specification_operator_and main.spec_green other)
    (declare_spec other (SizeSpecification large) main.memory_spec4).

Definition memory_after : Memory := destroy_spec other memory_during.
End temporary.

(** The conjunction of [nesting.q] and [nesting.p], in this order, and
    the conjunction of [nesting.p] with itself. *)
Module swapped.
Definition qp : ref := 8.
Definition pp : ref := 9.

Definition memory : Memory :=
  declare_spec pp (AndSpecification nesting.p nesting.p)
    (declare_spec qp (AndSpecification nesting.q nesting.p) nesting.memory).
End swapped.

(** ** The rectangles of the Liskov example

    [class Rectangle], [class Square : public Rectangle] and [process]. *)

(** What [std::endl] writes. *)
Definition endl : string := String (Ascii.ascii_of_nat 10) EmptyString.

Module Liskov.
(** [int] is taken 32 bits wide; a product that leaves its range is
    undefined behaviour, and is reported as [None]. *)
Definition INT_MIN : Z := -2147483648.
Definition INT_MAX : Z := 2147483647.

Definition in_int (z : Z) : bool := ((INT_MIN <=? z) && (z <=? INT_MAX))%Z.

Definition int_mul (a b : Z) : option Z :=
  if in_int (a * b) then Some (a * b)%Z else None.

(** The dynamic type of an object that a [Rectangle &] refers to. *)
Inductive Class : Set := Rectangle_class | Square_class.

(** The object: [int width, height;] and its dynamic type. *)
Record Rectangle : Set := mkRectangle {
  dynamic_type : Class;
  width : Z;
  height : Z
}.

(** [Rectangle(const int width, const int height) : width{width}, height{height}] *)
Definition Rectangle_new (width height : Z) : Rectangle :=
  mkRectangle Rectangle_class width height.

(** [Square(int size) : Rectangle(size, size)] *)
Definition Square_new (size : Z) : Rectangle :=
  mkRectangle Square_class size size.

Definition get_width (this : Rectangle) : Z := width this.

Definition get_height (this : Rectangle) : Z := height this.

(** [virtual void set_width(const int width)]:
    [Rectangle]: [this->width = width;]
    [Square]: [this->width = this->height = width;] *)
Definition set_width (this : Rectangle) (width0 : Z) : Rectangle :=
  match dynamic_type this with
  | Rectangle_class => mkRectangle Rectangle_class width0 (height this)
  | Square_class => mkRectangle Square_class width0 width0
  end.

(** [virtual void set_height(const int height)]:
    [Rectangle]: [this->height = height;]
    [Square]: [this->width = this->height = height;] *)
Definition set_height (this : Rectangle) (height0 : Z) : Rectangle :=
  match dynamic_type this with
  | Rectangle_class => mkRectangle Rectangle_class (width this) height0
  | Square_class => mkRectangle Square_class height0 height0
  end.

(** [int area() const { return width * height; }] *)
Definition area (this : Rectangle) : option Z := int_mul (width this) (height this).

(** The line that [process] prints. *)
Definition report (expected got : Z) : string :=
  "expected area = " +:+ pretty expected +:+ ", got " +:+ pretty got +:+ endl.

(** [void process(Rectangle &r)]: the object after the call and the
    text written to [std::cout]. *)
Definition process (r : Rectangle) : option (Rectangle * string) :=
  let w := get_width r in
  let r := set_height r 10 in
  expected ← int_mul w 10;
  got ← area r;
  Some (r, report expected got).

(** A call of one of the two setters, and a sequence of such calls on
    one object. *)
Inductive Setter : Set := call_set_width (w : Z) | call_set_height (h : Z).

Definition call_setter (this : Rectangle) (c : Setter) : Rectangle :=
  match c with
  | call_set_width w => set_width this w
  | call_set_height h => set_height this h
  end.

Definition call_setters (this : Rectangle) (calls : list Setter) : Rectangle :=
  foldl call_setter this calls.

(** The argument of the last call, of either setter; of the last
    [set_width]; of the last [set_height]. *)
Definition setter_argument (c : Setter) : Z :=
  match c with call_set_width w => w | call_set_height h => h end.

Definition last_argument (calls : list Setter) (default : Z) : Z :=
  foldl (λ _ c, setter_argument c) default calls.

Definition last_width (calls : list Setter) (default : Z) : Z :=
  foldl (λ d c, match c with call_set_width w => w | call_set_height _ => d end)
    default calls.

Definition last_height (calls : list Setter) (default : Z) : Z :=
  foldl (λ d c, match c with call_set_width _ => d | call_set_height h => h end)
    default calls.
End Liskov.

(** ** The relationships of the dependency inversion example

    [class Relationships : public RelationshipBrowser] and [class Research]. *)

Module DependencyInversion.
(** [enum class Relationship] *)
Inductive Relationship : Set := parent | child | sibling.

#[global] Instance Relationship_eq_dec : EqDecision Relationship.
Proof. solve_decision. Defined.

(** [struct Person { std::string_view name; }] *)
Record Person : Set := mkPerson { name : string }.

(** [std::vector<std::tuple<Person, Relationship, Person>> relations],
    the only member of [Relationships]. *)
Abbreviation Relationships := (list (Person * Relationship * Person)).

(** [addParentAndChild(const Person &parent, const Person &child)]:
    [relations.push_back({parent, Relationship::parent, child});]
    [relations.push_back({child, Relationship::child, parent});] *)
Definition addParentAndChild (relations : Relationships) (parent0 child0 : Person)
    : Relationships :=
  push_back (push_back relations (parent0, parent, child0)) (child0, child, parent0).

(** The loop of [findAllChildrenOf].  The pointer [&second] into the
    tuple at position [i] of [relations] is the position [i]. *)
Fixpoint findAllChildrenOf_loop (relations : Relationships) (i : nat)
    (name0 : string) (result : list nat) : list nat :=
  match relations with
  | [] => result
  | (first, rel, second) :: relations' =>
      findAllChildrenOf_loop relations' (S i) name0
        (if bool_decide (name first = name0) && bool_decide (rel = parent)
         then push_back result i else result)
  end.

(** [std::vector<Person *> findAllChildrenOf(const std::string_view &name)] *)
Definition findAllChildrenOf (relations : Relationships) (name0 : string) : list nat :=
  findAllChildrenOf_loop relations 0 name0 [].

(** [*p] for a pointer into [relations] returned by [findAllChildrenOf]. *)
Definition deref (relations : Relationships) (p : nat) : option Person :=
  match relations !! p with
  | Some (_, _, second) => Some second
  | None => None
  end.






(** The objects of [main]. *)
Definition main_relationships : Relationships :=
  addParentAndChild
    (addParentAndChild
       (addParentAndChild [] (mkPerson "John") (mkPerson "Chris"))
       (mkPerson "John") (mkPerson "Matt"))
    (mkPerson "Greg") (mkPerson "Dominic").
End DependencyInversion.

(** ** The journal of the single responsibility example

    [class Journal] and [Journal::add_entry]. *)

Module SingleResponsibility.
(** [std::string_view title; std::vector<std::string> entries{};]
    The constructor initialises [title] with itself, not with its
    argument, so the title holds no determined value: [None]. *)
Record Journal : Set := mkJournal {
  title : option string;
  entries : list string
}.

(** [Journal(const std::string &entry) : title(title)] *)
Definition Journal_new (entry : string) : Journal := mkJournal None [].

(** The first value of [static int count{1};] in [add_entry]. *)
Definition count_initial : Z := 1.

(** [Journal::add_entry(const std::string &entry)]:
    [entries.push_back(std::to_string(count++) + ": " + entry);]
    The static [count] is passed in and out; incrementing it beyond the
    largest [int] is undefined behaviour, reported as [None]. *)
Definition add_entry (count : Z) (this : Journal) (entry : string)
    : option (Z * Journal) :=
  if Liskov.in_int (count + 1)
  then Some ((count + 1)%Z,
             mkJournal (title this)
               (push_back (entries this) (pretty count +:+ ": " +:+ entry)))
  else None.

(** Calls [journals[j].add_entry(entry)] for the given pairs [(j, entry)],
    in order, on any number of journal objects. *)
Fixpoint add_entries (count : Z) (journals : gmap nat Journal)
    (calls : list (nat * string)) : option (Z * gmap nat Journal) :=
  match calls with
  | [] => Some (count, journals)
  | (j, entry) :: calls' =>
      this ← journals !! j;
      r ← add_entry count this entry;
      add_entries r.1 (<[j := r.2]> journals) calls'
  end.

(** The entries that the calls append to journal [j] when the counter
    starts at [count]. *)
Fixpoint numbered (count : Z) (calls : list (nat * string)) (j : nat) : list string :=
  match calls with
  | [] => []
  | (j', entry) :: calls' =>
      (if bool_decide (j' = j) then [pretty count +:+ ": " +:+ entry] else [])
      ++ numbered (count + 1) calls' j
  end.
End SingleResponsibility.

(** ** Judgements that do not mention the fuel *)

(** [spec.is_satisfied(item)] returns [b] in memory [m]. *)
Definition evaluates (m : Memory) (spec : ref) (item : ptr) (b : bool) : Prop :=
  ∃ fuel, is_satisfied fuel spec item m = Ret (b, m).

(** The same for an object given by value. *)
Definition evaluates_obj (m : Memory) (this : SpecificationObj) (item : ptr)
    (b : bool) : Prop :=
  ∃ fuel, is_satisfied_obj fuel this item m = Ret (b, m).

(** [bf.filter(items, spec)] returns [result] in memory [m]. *)
Definition filters (m : Memory) (items : list ptr) (spec : ref)
    (result : list ptr) : Prop :=
  ∃ fuel, BetterFilter.filter fuel items spec m = Ret (result, m).

(** Every operand that [spec] reaches within [depth] references is an
    object of the memory: no operand has been outlived. *)
Fixpoint operands_alive (depth : nat) (m : Memory) (spec : ref) : bool :=
  match depth with
  | 0 => false
  | S depth' =>
      match specifications m !! spec with
      | Some (AndSpecification first second) =>
          operands_alive depth' m first && operands_alive depth' m second
      | Some _ => true
      | None => false
      end
  end.

(** A sequence of calls [spec.is_satisfied(item)], one after the other. *)
Fixpoint evaluate_all (fuel : nat) (calls : list (ref * ptr)) : M (list bool) :=
  match calls with
  | [] => mret []
  | (spec, item) :: calls' =>
      is_satisfied fuel spec item ≫= λ b : bool,
      evaluate_all fuel calls' ≫= λ bs : list bool, mret (b :: bs)
  end.

(** The boolean that [spec.is_satisfied(item)] returns with the given
    fuel ([false] when it does not return). *)
Definition holds (fuel : nat) (m : Memory) (spec : ref) (item : ptr) : bool :=
  match is_satisfied fuel spec item m with
  | Ret (b, _) => b
  | _ => false
  end.

(** A computation that only reads: when it returns, the memory is the
    one it started from. *)
Definition read_only {A} (c : M A) : Prop :=
  ∀ m a m', c m = Ret (a, m') → m' = m.

(** Every pointer of [items] points to a product. *)
Definition valid_items (m : Memory) (items : list ptr) : bool :=
  forallb (λ i, bool_decide (is_Some (products m !! i))) items.

(** [i->color == color0] and [i->size == size0] as tests on a pointer
    that points to a product. *)
Definition color_is (m : Memory) (color0 : Color) (i : ptr) : bool :=
  match products m !! i with
  | Some x => bool_decide (color x = color0)
  | None => false
  end.

Definition size_is (m : Memory) (size0 : Size) (i : ptr) : bool :=
  match products m !! i with
  | Some x => bool_decide (size x = size0)
  | None => false
  end.

(** ** Basic facts about computations *)

Section Monad.
Context {A B : Type}.

Lemma bind_unfold (c : M A) (f : A → M B) (m : Memory) :
  (c ≫= f) m =
  match c m with
  | Ret (a, m') => f a m'
  | Undefined => Undefined
  | OutOfFuel => OutOfFuel
  end.
Proof. reflexivity. Qed.

Lemma ret_unfold (a : A) (m : Memory) : (mret a : M A) m = Ret (a, m).
Proof. reflexivity. Qed.

Lemma bind_Ret_inv (c : M A) (f : A → M B) (m : Memory) (r : B * Memory) :
  (c ≫= f) m = Ret r → ∃ a m', c m = Ret (a, m') ∧ f a m' = Ret r.
Proof.
  rewrite bind_unfold. destruct (c m) as [[a m']| |]; [eauto|done|done].
Qed.

Lemma bind_Ret (c : M A) (f : A → M B) (m m' : Memory) (a : A) :
  c m = Ret (a, m') → (c ≫= f) m = f a m'.
Proof. intros H. by rewrite bind_unfold, H. Qed.
End Monad.

Lemma read_only_ret {A} (a : A) : read_only (mret a : M A).
Proof. intros m a' m' H. rewrite ret_unfold in H. congruence. Qed.

Lemma read_only_bind {A B} (c : M A) (f : A → M B) :
  read_only c → (∀ a, read_only (f a)) → read_only (c ≫= f).
Proof.
  intros Hc Hf m b m' H.
  apply bind_Ret_inv in H as (a & m1 & H1 & H2).
  apply Hc in H1 as ->. by apply Hf in H2.
Qed.

Lemma read_only_if {A} (b : bool) (c1 c2 : M A) :
  read_only c1 → read_only c2 → read_only (if b then c1 else c2).
Proof. by destruct b. Qed.

Lemma read_only_deref p : read_only (deref p).
Proof.
  intros m a m'. unfold deref. destruct (products m !! p); congruence.
Qed.

Lemma read_only_load_spec r : read_only (load_spec r).
Proof.
  intros m a m'. unfold load_spec. destruct (specifications m !! r); congruence.
Qed.

Lemma read_only_load_vector v : read_only (load_vector v).
Proof.
  intros m a m'. unfold load_vector. destruct (vectors m !! v); congruence.
Qed.

Create HintDb read_only.

#[local] Hint Resolve read_only_ret read_only_bind read_only_if read_only_deref
  read_only_load_spec read_only_load_vector : read_only.

Lemma read_only_load {A} p (field : Product → A) : read_only (load p field).
Proof. unfold load. auto with read_only. Qed.

#[local] Hint Resolve read_only_load : read_only.

Lemma read_only_dispatch call this item :
  (∀ spec x, read_only (call spec x)) → read_only (dispatch call this item).
Proof.
  intros Hcall. destruct this as [c|s|first second]; simpl.
  - unfold ColorSpecification_is_satisfied. auto with read_only.
  - unfold SizeSpecification_is_satisfied. auto with read_only.
  - unfold AndSpecification_is_satisfied. auto with read_only.
Qed.

Lemma read_only_is_satisfied fuel spec item : read_only (is_satisfied fuel spec item).
Proof.
  revert spec item. induction fuel as [|fuel IH]; intros spec item.
  - intros m a m'. discriminate.
  - simpl. apply read_only_bind; [apply read_only_load_spec|].
    intros this. by apply read_only_dispatch.
Qed.

#[local] Hint Resolve read_only_is_satisfied : read_only.

Lemma read_only_filter_loop fuel items spec result :
  read_only (BetterFilter.filter_loop fuel items spec result).
Proof.
  revert result. induction items as [|item items IH]; intros result; simpl;
    auto with read_only.
Qed.

Lemma read_only_filter fuel items spec : read_only (BetterFilter.filter fuel items spec).
Proof. apply read_only_filter_loop. Qed.

#[local] Hint Resolve read_only_filter : read_only.

Lemma read_only_call_filter fuel v spec : read_only (BetterFilter.call_filter fuel v spec).
Proof. unfold BetterFilter.call_filter. auto with read_only. Qed.

Lemma read_only_evaluate_all fuel calls : read_only (evaluate_all fuel calls).
Proof.
  induction calls as [|[spec item] calls IH]; simpl; auto 6 with read_only.
Qed.

(** ** More fuel does not change a result *)

Lemma dispatch_mono (call call' : ref → ptr → M bool) this item m r :
  (∀ spec x m0 r0, call spec x m0 = Ret r0 → call' spec x m0 = Ret r0) →
  dispatch call this item m = Ret r → dispatch call' this item m = Ret r.
Proof.
  intros Hcall. destruct this as [c|s|first second]; simpl; [done|done|].
  unfold AndSpecification_is_satisfied. intros H.
  apply bind_Ret_inv in H as (b & m1 & H1 & H2).
  rewrite (bind_Ret _ _ _ _ _ (Hcall _ _ _ _ H1)).
  destruct b; [by apply Hcall|done].
Qed.

Lemma is_satisfied_mono fuel fuel' spec item m r :
  fuel ≤ fuel' →
  is_satisfied fuel spec item m = Ret r → is_satisfied fuel' spec item m = Ret r.
Proof.
  revert fuel' spec item m r.
  induction fuel as [|fuel IH]; intros fuel' spec item m r Hle H; [done|].
  destruct fuel' as [|fuel']; [lia|]. simpl in *.
  apply bind_Ret_inv in H as (this & m1 & H1 & H2).
  rewrite (bind_Ret _ _ _ _ _ H1).
  revert H2. apply dispatch_mono. intros. eapply IH; [lia|done].
Qed.

Lemma is_satisfied_obj_mono fuel fuel' this item m r :
  fuel ≤ fuel' →
  is_satisfied_obj fuel this item m = Ret r →
  is_satisfied_obj fuel' this item m = Ret r.
Proof.
  intros Hle. apply dispatch_mono. intros. by eapply is_satisfied_mono.
Qed.

(** ** What each class evaluates to *)

Lemma evaluates_ref m spec item b :
  evaluates m spec item b ↔
  ∃ this, specifications m !! spec = Some this ∧ evaluates_obj m this item b.
Proof.
  split.
  - intros [[|fuel] H]; [done|]. simpl in H.
    apply bind_Ret_inv in H as (this & m1 & H1 & H2).
    unfold load_spec in H1.
    destruct (specifications m !! spec) as [o|] eqn:Ho; [|done].
    injection H1 as -> ->. exists this. split; [done|]. by exists fuel.
  - intros (this & Ho & [fuel H]). exists (S fuel). simpl.
    rewrite bind_unfold. unfold load_spec. by rewrite Ho.
Qed.

Lemma load_run {A} item (field : Product → A) m :
  load item field m =
  match products m !! item with
  | Some x => Ret (field x, m)
  | None => Undefined
  end.
Proof.
  unfold load. rewrite bind_unfold. unfold deref.
  by destruct (products m !! item).
Qed.

Lemma load_Ret {A} item (field : Product → A) m x :
  products m !! item = Some x → load item field m = Ret (field x, m).
Proof.
  intros H. unfold load. rewrite bind_unfold. unfold deref. by rewrite H.
Qed.

Lemma load_Ret_inv {A} item (field : Product → A) m a m' :
  load item field m = Ret (a, m') →
  ∃ x, products m !! item = Some x ∧ a = field x ∧ m' = m.
Proof.
  unfold load. rewrite bind_unfold. unfold deref.
  destruct (products m !! item) as [x|]; [|done].
  rewrite ret_unfold. intros [= <- <-]. by exists x.
Qed.

Lemma evaluates_obj_color m color0 item b :
  evaluates_obj m (ColorSpecification color0) item b ↔
  ∃ x, products m !! item = Some x ∧ b = bool_decide (color x = color0).
Proof.
  unfold evaluates_obj, is_satisfied_obj. simpl.
  unfold ColorSpecification_is_satisfied. split.
  - intros [fuel H]. apply bind_Ret_inv in H as (c & m1 & H1 & H2).
    apply load_Ret_inv in H1 as (x & Hx & -> & ->).
    rewrite ret_unfold in H2. injection H2 as <-. by exists x.
  - intros (x & Hx & ->). exists 0.
    by rewrite (bind_Ret _ _ _ _ _ (load_Ret _ _ _ _ Hx)).
Qed.

Lemma evaluates_obj_size m size0 item b :
  evaluates_obj m (SizeSpecification size0) item b ↔
  ∃ x, products m !! item = Some x ∧ b = bool_decide (size x = size0).
Proof.
  unfold evaluates_obj, is_satisfied_obj. simpl.
  unfold SizeSpecification_is_satisfied. split.
  - intros [fuel H]. apply bind_Ret_inv in H as (c & m1 & H1 & H2).
    apply load_Ret_inv in H1 as (x & Hx & -> & ->).
    rewrite ret_unfold in H2. injection H2 as <-. by exists x.
  - intros (x & Hx & ->). exists 0.
    by rewrite (bind_Ret _ _ _ _ _ (load_Ret _ _ _ _ Hx)).
Qed.

Lemma evaluates_obj_and m first second item b :
  evaluates_obj m (AndSpecification first second) item b ↔
  ∃ bp, evaluates m first item bp ∧
        (if bp then evaluates m second item b else b = false).
Proof.
  unfold evaluates_obj, is_satisfied_obj. simpl.
  unfold AndSpecification_is_satisfied. split.
  - intros [fuel H]. apply bind_Ret_inv in H as (bp & m1 & H1 & H2).
    pose proof (read_only_is_satisfied _ _ _ _ _ _ H1) as ->.
    exists bp. split; [by exists fuel|].
    destruct bp; [by exists fuel|].
    rewrite ret_unfold in H2. by injection H2 as <-.
  - intros (bp & [n1 H1] & H2). destruct bp.
    + destruct H2 as [n2 H2]. exists (n1 `max` n2).
      rewrite (bind_Ret _ _ _ m true); [|eapply is_satisfied_mono; [|done]; lia].
      eapply is_satisfied_mono; [|done]. lia.
    + subst b. exists n1. by rewrite (bind_Ret _ _ _ m false).
Qed.

(** A call that returns has one result. *)
Lemma evaluates_det m spec item b1 b2 :
  evaluates m spec item b1 → evaluates m spec item b2 → b1 = b2.
Proof.
  intros [n1 H1] [n2 H2].
  apply (is_satisfied_mono _ (n1 `max` n2)) in H1; [|lia].
  apply (is_satisfied_mono _ (n1 `max` n2)) in H2; [|lia].
  congruence.
Qed.

(** ** The loop of [BetterFilter::filter] *)

Lemma filter_loop_Ret fuel items spec result m (sat : ptr → bool) :
  (∀ item, item ∈ items → is_satisfied fuel spec item m = Ret (sat item, m)) →
  BetterFilter.filter_loop fuel items spec result m
  = Ret (result ++ List.filter sat items, m).
Proof.
  revert result. induction items as [|item items IH]; intros result Hsat; simpl.
  - by rewrite ret_unfold, app_nil_r.
  - rewrite (bind_Ret _ _ m m (sat item)); [|apply Hsat; left].
    rewrite IH; [|intros; apply Hsat; by right].
    unfold push_back. destruct (sat item); [|done].
    by rewrite <- app_assoc.
Qed.

Lemma filter_loop_Ret_inv fuel items spec result m res m' :
  BetterFilter.filter_loop fuel items spec result m = Ret (res, m') →
  (∀ item, item ∈ items →
     is_satisfied fuel spec item m = Ret (holds fuel m spec item, m)) ∧
  res = result ++ List.filter (holds fuel m spec) items.
Proof.
  revert result. induction items as [|item items IH]; intros result H; simpl in H.
  - rewrite ret_unfold in H. injection H as <- <-. split.
    + intros item Hin. by apply elem_of_nil in Hin.
    + by rewrite app_nil_r.
  - apply bind_Ret_inv in H as (b & m1 & H1 & H2).
    pose proof (read_only_is_satisfied _ _ _ _ _ _ H1) as ->.
    apply IH in H2 as [Hall ->].
    assert (holds fuel m spec item = b) as Hb by (unfold holds; by rewrite H1).
    split.
    + intros x [->|Hin]%elem_of_cons; [by rewrite Hb|by apply Hall].
    + simpl. rewrite Hb. unfold push_back. destruct b; [|done].
      by rewrite <- app_assoc.
Qed.

Lemma common_fuel m spec (items : list ptr) (sat : ptr → bool) :
  (∀ item, item ∈ items → evaluates m spec item (sat item)) →
  ∃ fuel, ∀ n, fuel ≤ n →
    ∀ item, item ∈ items → is_satisfied n spec item m = Ret (sat item, m).
Proof.
  induction items as [|x items IH]; intros Hsat.
  - exists 0. intros n _ item Hin. by apply elem_of_nil in Hin.
  - destruct IH as [k Hk]; [intros; apply Hsat; by right|].
    destruct (Hsat x) as [kx Hx]; [left|].
    exists (k `max` kx). intros n Hn item [->|Hin]%elem_of_cons.
    + eapply is_satisfied_mono; [|done]. lia.
    + apply Hk; [lia|done].
Qed.

Lemma filters_intro m spec (items : list ptr) (sat : ptr → bool) :
  (∀ item, item ∈ items → evaluates m spec item (sat item)) →
  ∃ fuel, ∀ n, fuel ≤ n →
    BetterFilter.filter n items spec m = Ret (List.filter sat items, m).
Proof.
  intros Hsat. destruct (common_fuel _ _ _ _ Hsat) as [fuel Hfuel].
  exists fuel. intros n Hn. unfold BetterFilter.filter.
  rewrite (filter_loop_Ret _ _ _ _ _ sat); [done|by apply Hfuel].
Qed.

Lemma filters_inv m spec items res :
  filters m items spec res →
  ∃ sat : ptr → bool,
    (∀ item, item ∈ items → evaluates m spec item (sat item)) ∧
    res = List.filter sat items.
Proof.
  intros [fuel H]. apply filter_loop_Ret_inv in H as [Hall ->].
  exists (holds fuel m spec). split; [|done].
  intros item Hin. exists fuel. by apply Hall.
Qed.

Lemma filter_sublist {A} (sat : A → bool) (l : list A) :
  List.filter sat l `sublist_of` l.
Proof.
  induction l as [|x l IH]; simpl; [constructor|].
  destruct (sat x); by constructor.
Qed.

Lemma filter_all_true {A} (sat : A → bool) (l : list A) :
  (∀ x, x ∈ l → sat x = true) → List.filter sat l = l.
Proof.
  induction l as [|x l IH]; intros H; simpl; [done|].
  rewrite H; [|left]. f_equal. apply IH. intros; apply H; by right.
Qed.

Lemma filter_all_false {A} (sat : A → bool) (l : list A) :
  (∀ x, x ∈ l → sat x = false) → List.filter sat l = [].
Proof.
  induction l as [|x l IH]; intros H; simpl; [done|].
  rewrite H; [|left]. apply IH. intros; apply H; by right.
Qed.

(** ** Well-formed inputs give a result *)

Lemma dispatch_total call this item m :
  is_Some (products m !! item) →
  (∀ first second, this = AndSpecification first second →
     (∃ b, call first item m = Ret (b, m)) ∧ (∃ b, call second item m = Ret (b, m))) →
  ∃ b, dispatch call this item m = Ret (b, m).
Proof.
  intros [x Hx] Hcall. destruct this as [c|s|first second]; simpl.
  - eexists. unfold ColorSpecification_is_satisfied.
    by rewrite (bind_Ret _ _ _ _ _ (load_Ret _ _ _ _ Hx)).
  - eexists. unfold SizeSpecification_is_satisfied.
    by rewrite (bind_Ret _ _ _ _ _ (load_Ret _ _ _ _ Hx)).
  - destruct (Hcall first second eq_refl) as [[bp Hp] [bq Hq]].
    unfold AndSpecification_is_satisfied. rewrite (bind_Ret _ _ _ _ _ Hp).
    destruct bp; [by exists bq|by exists false].
Qed.

Lemma is_satisfied_total depth m spec item :
  operands_alive depth m spec = true →
  is_Some (products m !! item) →
  ∃ b, is_satisfied depth spec item m = Ret (b, m).
Proof.
  intros Halive Hitem. revert spec Halive.
  induction depth as [|depth IH]; intros spec Halive; [done|]. simpl in *.
  rewrite bind_unfold. unfold load_spec.
  destruct (specifications m !! spec) as [this|]; [|done].
  apply dispatch_total; [done|]. intros first second ->.
  apply andb_true_iff in Halive as [H1 H2]. split; by apply IH.
Qed.

(** ** The result depends on the item and the specifications only *)

Lemma dispatch_agree (call : ref → ptr → M bool) this item m m' b m1 :
  products m' !! item = products m !! item →
  (∀ spec b0 m0, call spec item m = Ret (b0, m0) →
     m0 = m ∧ call spec item m' = Ret (b0, m')) →
  dispatch call this item m = Ret (b, m1) →
  dispatch call this item m' = Ret (b, m').
Proof.
  intros Hitem Hcall. destruct this as [c|s|first second]; simpl.
  - unfold ColorSpecification_is_satisfied. rewrite !bind_unfold, !load_run, Hitem.
    destruct (products m !! item); [|done]. rewrite !ret_unfold. congruence.
  - unfold SizeSpecification_is_satisfied. rewrite !bind_unfold, !load_run, Hitem.
    destruct (products m !! item); [|done]. rewrite !ret_unfold. congruence.
  - unfold AndSpecification_is_satisfied. intros H.
    apply bind_Ret_inv in H as (bp & m0 & Hp & Hq).
    apply Hcall in Hp as [-> Hp]. rewrite (bind_Ret _ _ _ _ _ Hp).
    destruct bp.
    + by apply Hcall in Hq as [_ Hq].
    + rewrite ret_unfold in *. congruence.
Qed.

Lemma is_satisfied_agree fuel spec item m m' b m1 :
  products m' !! item = products m !! item →
  specifications m' = specifications m →
  is_satisfied fuel spec item m = Ret (b, m1) →
  is_satisfied fuel spec item m' = Ret (b, m').
Proof.
  intros Hitem Hspecs. revert spec b m1.
  induction fuel as [|fuel IH]; intros spec b m1 H; [done|]. simpl in *.
  rewrite bind_unfold in *. unfold load_spec in *. rewrite Hspecs.
  destruct (specifications m !! spec) as [this|]; [|done].
  revert H. apply dispatch_agree; [done|].
  intros spec0 b0 m0 H0. split; [by apply read_only_is_satisfied in H0|by eapply IH].
Qed.

Lemma filter_total depth m spec (items : list ptr) :
  operands_alive depth m spec = true →
  (∀ item, item ∈ items → is_Some (products m !! item)) →
  ∃ result, BetterFilter.filter depth items spec m = Ret (result, m).
Proof.
  intros Halive Hitems. exists (List.filter (holds depth m spec) items).
  unfold BetterFilter.filter. rewrite (filter_loop_Ret _ _ _ _ _ (holds depth m spec)); [done|].
  intros item Hin. unfold holds.
  destruct (is_satisfied_total depth m spec item Halive (Hitems item Hin)) as [b ->].
  done.
Qed.

(** A conjunction that has outlived an operand: the call is undefined
    as soon as the destroyed operand has to be evaluated, and returns
    [false] when the first operand already fails. *)
Lemma outlived_operand fuel :
  operands_alive fuel temporary.memory_after temporary.s = false ∧
  is_satisfied (S (S fuel)) temporary.s main.tree temporary.memory_during
    = Ret (true, temporary.memory_during) ∧
  is_satisfied (S (S fuel)) temporary.s main.tree temporary.memory_after = Undefined ∧
  is_satisfied (S (S fuel)) temporary.s main.house temporary.memory_after
    = Ret (false, temporary.memory_after).
Proof.
  split; [|repeat split; vm_compute; reflexivity].
  destruct fuel as [|[|fuel]]; vm_compute; reflexivity.
Qed.

(** Case analysis on [x ∈ [a; b; ...]] for a list written out. *)
Ltac elem_of_cases H :=
  repeat (apply elem_of_cons in H as [->|H]); [..|by apply elem_of_nil in H].

(** ** Conjunction *)

(** C1: when [first.is_satisfied(item)] returns [bp] and
    [second.is_satisfied(item)] returns [bq], the conjunction object
    [AndSpecification(first, second)] returns [bp && bq] on [item], it
    returns nothing else, and so does every reference to such an object. *)
Theorem AndSpecification_is_conjunction m first second item bp bq :
  evaluates m first item bp →
  evaluates m second item bq →
  evaluates_obj m (AndSpecification first second) item (bp && bq) ∧
  (∀ b, evaluates_obj m (AndSpecification first second) item b → b = bp && bq) ∧
  (∀ spec, specifications m !! spec = Some (AndSpecification first second) →
     evaluates m spec item (bp && bq)).
Proof.
  intros Hp Hq.
  assert (evaluates_obj m (AndSpecification first second) item (bp && bq)) as Hand.
  { apply evaluates_obj_and. exists bp. split; [done|]. by destruct bp. }
  split; [done|]. split.
  - intros b (bp' & Hp' & Hb)%evaluates_obj_and.
    rewrite <- (evaluates_det _ _ _ _ _ Hp Hp') in Hb.
    destruct bp; simpl; [by eapply evaluates_det|done].
  - intros spec Hspec. apply evaluates_ref. by exists (AndSpecification first second).
Qed.

Lemma AndSpecification_is_conjunction_witness :
  evaluates main.memory_green_and_large main.spec_green main.tree true ∧
  evaluates main.memory_green_and_large main.spec_large main.tree true ∧
  evaluates_obj main.memory_green_and_large
    (AndSpecification main.spec_green main.spec_large) main.tree (true && true).
Proof.
  assert (evaluates main.memory_green_and_large main.spec_green main.tree true)
    as Hp by (exists 1; vm_compute; reflexivity).
  assert (evaluates main.memory_green_and_large main.spec_large main.tree true)
    as Hq by (exists 1; vm_compute; reflexivity).
  split; [exact Hp|]. split; [exact Hq|].
  exact (proj1 (AndSpecification_is_conjunction _ _ _ _ _ _ Hp Hq)).
Defined.

(** ** The filter *)

(** C2: when the predicate returns [sat item] on every item of the
    input, [BetterFilter::filter] returns the items with [sat item = true]
    in the order of the input: the result is [List.filter sat items], it
    is a subsequence of [items], and no run returns anything else. *)
Theorem filter_is_stable_subsequence m spec (items : list ptr) (sat : ptr → bool) :
  (∀ item, item ∈ items → evaluates m spec item (sat item)) →
  (∃ fuel, ∀ n, fuel ≤ n →
     BetterFilter.filter n items spec m = Ret (List.filter sat items, m)) ∧
  List.filter sat items `sublist_of` items ∧
  (∀ item, item ∈ List.filter sat items ↔ item ∈ items ∧ sat item = true) ∧
  (∀ result, filters m items spec result → result = List.filter sat items).
Proof.
  intros Hsat. split; [by apply filters_intro|].
  split; [apply filter_sublist|]. split.
  - intros item. rewrite !list_elem_of_In. apply List.filter_In.
  - intros result (sat' & Hsat' & ->)%filters_inv.
    apply List.filter_ext_in. intros item Hin%list_elem_of_In.
    eapply evaluates_det; [by apply Hsat'|by apply Hsat].
Qed.

Lemma filter_is_stable_subsequence_witness :
  (∀ item, item ∈ [main.apple; main.tree; main.house] →
     evaluates main.memory_green main.spec_green item (bool_decide (item ≤ 2))) ∧
  ∃ fuel, ∀ n, fuel ≤ n →
    BetterFilter.filter n [main.apple; main.tree; main.house] main.spec_green
      main.memory_green
    = Ret (List.filter (λ item, bool_decide (item ≤ 2))
             [main.apple; main.tree; main.house], main.memory_green).
Proof.
  assert (∀ item, item ∈ [main.apple; main.tree; main.house] →
     evaluates main.memory_green main.spec_green item (bool_decide (item ≤ 2)))
    as Hsat.
  { intros item Hin. exists 1.
    elem_of_cases Hin; vm_compute; reflexivity. }
  split; [exact Hsat|].
  exact (proj1 (filter_is_stable_subsequence _ _ _ _ Hsat)).
Defined.

(** C5: the degenerate cases of [BetterFilter::filter].  An empty input
    gives an empty result whatever the predicate is; a predicate that
    returns [true] on every item of the input gives the input back,
    unchanged; a predicate that returns [false] on every item gives the
    empty result. *)
Theorem filter_degenerate_cases m spec :
  (∀ fuel, BetterFilter.filter fuel [] spec m = Ret ([], m)) ∧
  (∀ items : list ptr,
     (∀ item, item ∈ items → evaluates m spec item true) →
     ∃ fuel, ∀ n, fuel ≤ n → BetterFilter.filter n items spec m = Ret (items, m)) ∧
  (∀ items : list ptr,
     (∀ item, item ∈ items → evaluates m spec item false) →
     ∃ fuel, ∀ n, fuel ≤ n → BetterFilter.filter n items spec m = Ret ([], m)).
Proof.
  split; [done|]. split.
  - intros items Hall.
    destruct (filters_intro m spec items (λ _, true) Hall) as [fuel H].
    exists fuel. intros n Hn. rewrite (H n Hn). by rewrite filter_all_true.
  - intros items Hall.
    destruct (filters_intro m spec items (λ _, false) Hall) as [fuel H].
    exists fuel. intros n Hn. rewrite (H n Hn). by rewrite filter_all_false.
Qed.

Lemma filter_degenerate_cases_witness :
  BetterFilter.filter 1 [] main.spec_green main.memory_green
    = Ret ([], main.memory_green) ∧
  (∃ fuel, ∀ n, fuel ≤ n →
     BetterFilter.filter n [main.apple; main.tree] main.spec_green main.memory_green
     = Ret ([main.apple; main.tree], main.memory_green)) ∧
  (∃ fuel, ∀ n, fuel ≤ n →
     BetterFilter.filter n [main.house; main.house] main.spec_green main.memory_green
     = Ret ([], main.memory_green)).
Proof.
  destruct (filter_degenerate_cases main.memory_green main.spec_green)
    as (Hnil & Htrue & Hfalse).
  split; [exact (Hnil 1)|]. split.
  - apply Htrue. intros item Hin. exists 1.
    elem_of_cases Hin; vm_compute; reflexivity.
  - apply Hfalse. intros item Hin. exists 1.
    elem_of_cases Hin; vm_compute; reflexivity.
Defined.

(** C7: a call [bf.filter(v, spec)] that returns leaves the memory as it
    found it.  The caller's vector at [v] holds the same pointers in the
    same order, every product behind a pointer is unchanged, and every
    specification object, with the color, size or operand references it
    was constructed with, is unchanged. *)
Theorem filter_does_not_mutate fuel v spec m result m' :
  BetterFilter.call_filter fuel v spec m = Ret (result, m') →
  m' = m ∧
  vectors m' !! v = vectors m !! v ∧
  (∀ item, products m' !! item = products m !! item) ∧
  (∀ r, specifications m' !! r = specifications m !! r).
Proof.
  intros H. apply read_only_call_filter in H as ->. done.
Qed.

Lemma filter_does_not_mutate_witness :
  BetterFilter.call_filter 2 main.items main.green_and_large main.memory_green_and_large
    = Ret ([main.tree], main.memory_green_and_large) ∧
  vectors main.memory_green_and_large !! main.items
    = vectors main.memory_green_and_large !! main.items.
Proof.
  assert (BetterFilter.call_filter 2 main.items main.green_and_large
            main.memory_green_and_large
          = Ret ([main.tree], main.memory_green_and_large)) as H
    by (vm_compute; reflexivity).
  split; [exact H|].
  exact (proj1 (proj2 (filter_does_not_mutate _ _ _ _ _ _ H))).
Defined.

(** ** Purity and totality of the predicates *)

(** C8: a call [spec.is_satisfied(item)] that returns [b] leaves the
    memory (the item, the predicate and its operands) unchanged; after
    any further sequence of evaluations of any predicates on any items
    the memory is still the same and the call returns [b] again; and the
    call returns [b] in every memory that has the same product behind
    [item] and the same specification objects. *)
Theorem is_satisfied_is_pure fuel spec item m b m1 :
  is_satisfied fuel spec item m = Ret (b, m1) →
  m1 = m ∧
  (∀ fuel' calls bs m2,
     evaluate_all fuel' calls m1 = Ret (bs, m2) →
     m2 = m ∧ is_satisfied fuel spec item m2 = Ret (b, m2)) ∧
  (∀ m',
     products m' !! item = products m !! item →
     specifications m' = specifications m →
     is_satisfied fuel spec item m' = Ret (b, m')).
Proof.
  intros H. pose proof (read_only_is_satisfied _ _ _ _ _ _ H) as ->.
  split; [done|]. split.
  - intros fuel' calls bs m2 Hall.
    by apply read_only_evaluate_all in Hall as ->.
  - intros m' Hitem Hspecs. by eapply is_satisfied_agree.
Qed.

Lemma is_satisfied_is_pure_witness :
  is_satisfied 2 main.green_and_large main.tree main.memory_spec4
    = Ret (true, main.memory_spec4) ∧
  evaluate_all 2 [(main.spec4, main.house); (main.spec_green, main.apple);
                  (main.green_and_large, main.tree)] main.memory_spec4
    = Ret ([true; true; true], main.memory_spec4) ∧
  is_satisfied 2 main.green_and_large main.tree main.memory_spec4
    = Ret (true, main.memory_spec4).
Proof.
  assert (is_satisfied 2 main.green_and_large main.tree main.memory_spec4
          = Ret (true, main.memory_spec4)) as H by (vm_compute; reflexivity).
  assert (evaluate_all 2 [(main.spec4, main.house); (main.spec_green, main.apple);
                          (main.green_and_large, main.tree)] main.memory_spec4
          = Ret ([true; true; true], main.memory_spec4)) as Hall
    by (vm_compute; reflexivity).
  split; [exact H|]. split; [exact Hall|].
  exact (proj2 (proj1 (proj2 (is_satisfied_is_pure _ _ _ _ _ _ H)) _ _ _ _ Hall)).
Defined.

(** C9: for a pointer to a product of the memory and a predicate whose
    operands are all alive (within [depth] references), the call
    [spec.is_satisfied(item)] returns a boolean, with every fuel from
    [depth] on: it neither runs into undefined behaviour nor fails to
    return.  Leaf predicates, which have no operands, return a boolean
    with any fuel. *)
Theorem is_satisfied_is_total depth m spec item :
  operands_alive depth m spec = true →
  is_Some (products m !! item) →
  (∃ b, ∀ fuel, depth ≤ fuel → is_satisfied fuel spec item m = Ret (b, m)) ∧
  (∀ fuel color0, ∃ b,
     is_satisfied_obj fuel (ColorSpecification color0) item m = Ret (b, m)) ∧
  (∀ fuel size0, ∃ b,
     is_satisfied_obj fuel (SizeSpecification size0) item m = Ret (b, m)).
Proof.
  intros Halive Hitem. split; [|split].
  - destruct (is_satisfied_total _ _ _ _ Halive Hitem) as [b Hb].
    exists b. intros fuel Hle. by eapply is_satisfied_mono.
  - intros fuel color0. by apply dispatch_total.
  - intros fuel size0. by apply dispatch_total.
Qed.

Lemma is_satisfied_is_total_witness :
  operands_alive 2 main.memory_spec4 main.spec4 = true ∧
  is_Some (products main.memory_spec4 !! main.house) ∧
  ∃ b, ∀ fuel, 2 ≤ fuel →
    is_satisfied fuel main.spec4 main.house main.memory_spec4
    = Ret (b, main.memory_spec4).
Proof.
  assert (operands_alive 2 main.memory_spec4 main.spec4 = true) as Halive
    by (vm_compute; reflexivity).
  assert (is_Some (products main.memory_spec4 !! main.house)) as Hitem
    by (vm_compute; eexists; reflexivity).
  split; [exact Halive|]. split; [exact Hitem|].
  exact (proj1 (is_satisfied_is_total _ _ _ _ Halive Hitem)).
Defined.

(** C9, as stated for every composite predicate, fails: the conjunction
    [temporary.s], built by the member [operator&&] from [green] and a
    temporary [SizeSpecification], has outlived its second operand; on
    the product Tree, which [green] accepts, the call is undefined, and
    with no fuel does it return a boolean. *)
Lemma is_satisfied_is_total_counterexample :
  is_Some (products temporary.memory_after !! main.tree) ∧
  specifications temporary.memory_after !! temporary.s
    = Some (Specification_operator_and main.spec_green temporary.other) ∧
  is_satisfied 2 temporary.s main.tree temporary.memory_after = Undefined ∧
  ¬ ∃ fuel b m',
      is_satisfied fuel temporary.s main.tree temporary.memory_after = Ret (b, m').
Proof.
  split; [vm_compute; by eexists|].
  split; [vm_compute; reflexivity|].
  split; [vm_compute; reflexivity|].
  intros (fuel & b & m' & H).
  destruct fuel as [|[|fuel]]; vm_compute in H; discriminate.
Qed.

(** ** The scenario of [main] *)

(** C3: with the three products Apple (green, small), Tree (green,
    large) and House (blue, large) in the vector [items], the four calls
    of [main] return: the green items, Apple and Tree; the green and
    large items, Tree, both for the conjunction built with the
    constructor and for the one built with [operator&&]; the blue and
    large items, House. *)
Theorem main_scenario fuel :
  2 ≤ fuel →
  (products main.memory_green !! main.apple = Some (mkProduct "Apple" green small) ∧
   products main.memory_green !! main.tree = Some (mkProduct "Tree" green large) ∧
   products main.memory_green !! main.house = Some (mkProduct "House" blue large) ∧
   vectors main.memory_green !! main.items = Some [main.apple; main.tree; main.house]) ∧
  (BetterFilter.call_filter fuel main.items main.spec_green main.memory_green
     = Ret ([main.apple; main.tree], main.memory_green) ∧
   main.names [main.apple; main.tree] main.memory_green
     = Ret (["Apple"; "Tree"], main.memory_green)) ∧
  (BetterFilter.call_filter fuel main.items main.green_and_large
     main.memory_green_and_large
     = Ret ([main.tree], main.memory_green_and_large) ∧
   BetterFilter.call_filter fuel main.items main.spec main.memory_spec
     = Ret ([main.tree], main.memory_spec) ∧
   main.names [main.tree] main.memory_spec = Ret (["Tree"], main.memory_spec)) ∧
  (BetterFilter.call_filter fuel main.items main.spec4 main.memory_spec4
     = Ret ([main.house], main.memory_spec4) ∧
   main.names [main.house] main.memory_spec4 = Ret (["House"], main.memory_spec4)).
Proof.
  intros Hfuel. destruct fuel as [|[|fuel]]; [lia|lia|].
  repeat split; vm_compute; reflexivity.
Qed.

Lemma main_scenario_witness :
  2 ≤ 2 ∧
  BetterFilter.call_filter 2 main.items main.spec4 main.memory_spec4
    = Ret ([main.house], main.memory_spec4).
Proof.
  split; [lia|].
  exact (proj1 (proj2 (proj2 (proj2 (main_scenario 2 (le_n 2)))))).
Defined.

(** ** Associativity *)

Lemma and_assoc_evaluates m p q r pq qr item b :
  specifications m !! pq = Some (AndSpecification p q) →
  specifications m !! qr = Some (AndSpecification q r) →
  evaluates_obj m (AndSpecification pq r) item b ↔
  evaluates_obj m (AndSpecification p qr) item b.
Proof.
  intros Hpq Hqr. rewrite !evaluates_obj_and. split.
  - intros (bpq & (this & Hthis & Hand)%evaluates_ref & Hr).
    rewrite Hpq in Hthis. injection Hthis as <-.
    apply evaluates_obj_and in Hand as (bp & Hp & Hq).
    exists bp. split; [done|]. destruct bp.
    + apply evaluates_ref. eexists. split; [done|].
      apply evaluates_obj_and. by exists bpq.
    + by subst bpq.
  - intros (bp & Hp & Hrest). destruct bp.
    + apply evaluates_ref in Hrest as (this & Hthis & Hand).
      rewrite Hqr in Hthis. injection Hthis as <-.
      apply evaluates_obj_and in Hand as (bq & Hq & Hr).
      exists bq. split; [|done].
      apply evaluates_ref. eexists. split; [done|].
      apply evaluates_obj_and. by exists true.
    + exists false. split; [|done].
      apply evaluates_ref. eexists. split; [done|].
      apply evaluates_obj_and. by exists false.
Qed.

Lemma filters_ext m (items : list ptr) spec1 spec2 result :
  (∀ item b, evaluates m spec1 item b → evaluates m spec2 item b) →
  filters m items spec1 result → filters m items spec2 result.
Proof.
  intros Hext (sat & Hsat & ->)%filters_inv.
  destruct (filters_intro m spec2 items sat) as [fuel H].
  { intros item Hin. by apply Hext, Hsat. }
  exists fuel. by apply H.
Qed.

(** C4: with [pq] a conjunction of [p] and [q], and [qr] a conjunction
    of [q] and [r], the conjunction of [pq] and [r] returns [b] on an
    item exactly when the conjunction of [p] and [qr] does; and when
    [left] and [right] refer to these two nestings, [bf.filter] returns
    the same result for both on every input. *)
Theorem AndSpecification_is_associative m p q r pq qr :
  specifications m !! pq = Some (AndSpecification p q) →
  specifications m !! qr = Some (AndSpecification q r) →
  (∀ item b,
     evaluates_obj m (AndSpecification pq r) item b ↔
     evaluates_obj m (AndSpecification p qr) item b) ∧
  (∀ left right items result,
     specifications m !! left = Some (AndSpecification pq r) →
     specifications m !! right = Some (AndSpecification p qr) →
     filters m items left result ↔ filters m items right result).
Proof.
  intros Hpq Hqr.
  split; [intros item b; by apply (and_assoc_evaluates m p q r pq qr)|].
  intros left right items result Hl Hr.
  split; apply filters_ext; intros item b (this & Hthis & H)%evaluates_ref;
    apply evaluates_ref; eexists; (split; [done|]).
  - rewrite Hl in Hthis. injection Hthis as <-.
    by apply (and_assoc_evaluates m p q r pq qr).
  - rewrite Hr in Hthis. injection Hthis as <-.
    by apply (and_assoc_evaluates m p q r pq qr).
Qed.

Lemma AndSpecification_is_associative_witness :
  specifications nesting.memory !! nesting.pq
    = Some (AndSpecification nesting.p nesting.q) ∧
  specifications nesting.memory !! nesting.qr
    = Some (AndSpecification nesting.q nesting.r) ∧
  (evaluates_obj nesting.memory (AndSpecification nesting.pq nesting.r) main.tree true ↔
   evaluates_obj nesting.memory (AndSpecification nesting.p nesting.qr) main.tree true).
Proof.
  assert (specifications nesting.memory !! nesting.pq
          = Some (AndSpecification nesting.p nesting.q)) as Hpq
    by (vm_compute; reflexivity).
  assert (specifications nesting.memory !! nesting.qr
          = Some (AndSpecification nesting.q nesting.r)) as Hqr
    by (vm_compute; reflexivity).
  split; [exact Hpq|]. split; [exact Hqr|].
  exact (proj1 (AndSpecification_is_associative _ _ _ _ _ _ Hpq Hqr) main.tree true).
Defined.

(** ** The two ways to build a conjunction *)

(** C6: the member [operator&&] and the free [operator&&] return the
    object that the constructor call [AndSpecification(first, second)]
    builds from the same two references; the returned object evaluates
    on every item, in every memory and with every fuel, as that object
    does, and a variable initialised with it filters as one initialised
    with the constructor. *)
Theorem operator_and_is_AndSpecification first second :
  Specification_operator_and first second = AndSpecification first second ∧
  operator_and first second = AndSpecification first second ∧
  (∀ fuel item m,
     is_satisfied_obj fuel (Specification_operator_and first second) item m
     = is_satisfied_obj fuel (AndSpecification first second) item m ∧
     is_satisfied_obj fuel (operator_and first second) item m
     = is_satisfied_obj fuel (AndSpecification first second) item m) ∧
  (∀ fuel items spec m,
     BetterFilter.filter fuel items spec
       (declare_spec spec (Specification_operator_and first second) m)
     = BetterFilter.filter fuel items spec
         (declare_spec spec (AndSpecification first second) m) ∧
     BetterFilter.filter fuel items spec
       (declare_spec spec (operator_and first second) m)
     = BetterFilter.filter fuel items spec
         (declare_spec spec (AndSpecification first second) m)).
Proof. done. Qed.

(** ** The hand-written filters *)

Lemma is_satisfied_color_run fuel spec color0 item m :
  specifications m !! spec = Some (ColorSpecification color0) →
  is_satisfied (S fuel) spec item m =
  match products m !! item with
  | Some x => Ret (bool_decide (color x = color0), m)
  | None => Undefined
  end.
Proof.
  intros Hspec. simpl. rewrite bind_unfold. unfold load_spec. rewrite Hspec.
  simpl. unfold ColorSpecification_is_satisfied.
  rewrite bind_unfold, load_run. by destruct (products m !! item).
Qed.

Lemma is_satisfied_size_run fuel spec size0 item m :
  specifications m !! spec = Some (SizeSpecification size0) →
  is_satisfied (S fuel) spec item m =
  match products m !! item with
  | Some x => Ret (bool_decide (size x = size0), m)
  | None => Undefined
  end.
Proof.
  intros Hspec. simpl. rewrite bind_unfold. unfold load_spec. rewrite Hspec.
  simpl. unfold SizeSpecification_is_satisfied.
  rewrite bind_unfold, load_run. by destruct (products m !! item).
Qed.

Lemma is_satisfied_color_and_size_run fuel spec first second color0 size0 item m :
  specifications m !! spec = Some (AndSpecification first second) →
  specifications m !! first = Some (ColorSpecification color0) →
  specifications m !! second = Some (SizeSpecification size0) →
  is_satisfied (S (S fuel)) spec item m =
  match products m !! item with
  | Some x => Ret (bool_decide (color x = color0) && bool_decide (size x = size0), m)
  | None => Undefined
  end.
Proof.
  intros Hspec Hfirst Hsecond.
  change (is_satisfied (S (S fuel)) spec item m)
    with ((load_spec spec ≫= λ this, dispatch (is_satisfied (S fuel)) this item) m).
  rewrite bind_unfold. unfold load_spec at 1. rewrite Hspec.
  cbn [dispatch]. unfold AndSpecification_is_satisfied.
  rewrite bind_unfold, (is_satisfied_color_run _ _ _ _ _ Hfirst).
  destruct (products m !! item) as [x|] eqn:Hx; [|done].
  destruct (bool_decide (color x = color0)); [|done].
  by rewrite (is_satisfied_size_run _ _ _ _ _ Hsecond), Hx.
Qed.

Lemma size_and_color_match_run i color0 size0 m :
  ProductFilter.size_and_color_match i color0 size0 m =
  match products m !! i with
  | Some x => Ret (bool_decide (color x = color0) && bool_decide (size x = size0), m)
  | None => Undefined
  end.
Proof.
  unfold ProductFilter.size_and_color_match. rewrite bind_unfold, load_run.
  destruct (products m !! i) as [x|] eqn:Hx; [|done].
  destruct (bool_decide (size x = size0)).
  - rewrite bind_unfold, load_run, Hx, ret_unfold. by rewrite andb_true_r.
  - rewrite ret_unfold. by rewrite andb_false_r.
Qed.

Lemma by_color_loop_filter_loop fuel items spec color0 result m :
  specifications m !! spec = Some (ColorSpecification color0) →
  BetterFilter.filter_loop (S fuel) items spec result m
  = ProductFilter.by_color_loop items color0 result m.
Proof.
  intros Hspec. revert result.
  induction items as [|i items IH]; intros result; [done|].
  cbn [BetterFilter.filter_loop ProductFilter.by_color_loop].
  rewrite !bind_unfold, (is_satisfied_color_run _ _ _ _ _ Hspec), load_run.
  destruct (products m !! i); [apply IH|done].
Qed.

Lemma by_size_loop_filter_loop fuel items spec size0 result m :
  specifications m !! spec = Some (SizeSpecification size0) →
  BetterFilter.filter_loop (S fuel) items spec result m
  = ProductFilter.by_size_loop items size0 result m.
Proof.
  intros Hspec. revert result.
  induction items as [|i items IH]; intros result; [done|].
  cbn [BetterFilter.filter_loop ProductFilter.by_size_loop].
  rewrite !bind_unfold, (is_satisfied_size_run _ _ _ _ _ Hspec), load_run.
  destruct (products m !! i); [apply IH|done].
Qed.

Lemma by_size_and_color_loop_filter_loop fuel items spec first second
    color0 size0 result m :
  specifications m !! spec = Some (AndSpecification first second) →
  specifications m !! first = Some (ColorSpecification color0) →
  specifications m !! second = Some (SizeSpecification size0) →
  BetterFilter.filter_loop (S (S fuel)) items spec result m
  = ProductFilter.by_size_and_color_loop items color0 size0 result m.
Proof.
  intros Hspec Hfirst Hsecond. revert result.
  induction items as [|i items IH]; intros result; [done|].
  cbn [BetterFilter.filter_loop ProductFilter.by_size_and_color_loop].
  rewrite !bind_unfold, size_and_color_match_run,
    (is_satisfied_color_and_size_run _ _ _ _ _ _ _ _ Hspec Hfirst Hsecond).
  destruct (products m !! i); [apply IH|done].
Qed.

(** C10: the three methods of [ProductFilter] compute what
    [BetterFilter::filter] computes with the matching specification, on
    every input and in every memory (also where a pointer of the input
    has no product, and both are undefined): [by_color] with a
    [ColorSpecification], [by_size] with a [SizeSpecification], and
    [by_size_and_color] with the [AndSpecification] of the two. *)
Theorem ProductFilter_agrees_with_BetterFilter m spec first second color0 size0 :
  specifications m !! first = Some (ColorSpecification color0) →
  specifications m !! second = Some (SizeSpecification size0) →
  specifications m !! spec = Some (AndSpecification first second) →
  ∀ fuel items,
    ProductFilter.by_color items color0 m
      = BetterFilter.filter (S fuel) items first m ∧
    ProductFilter.by_size items size0 m
      = BetterFilter.filter (S fuel) items second m ∧
    ProductFilter.by_size_and_color items color0 size0 m
      = BetterFilter.filter (S (S fuel)) items spec m.
Proof.
  intros Hfirst Hsecond Hspec fuel items. split; [|split]; symmetry.
  - by apply by_color_loop_filter_loop.
  - by apply by_size_loop_filter_loop.
  - by eapply by_size_and_color_loop_filter_loop.
Qed.

Lemma ProductFilter_agrees_with_BetterFilter_witness :
  specifications main.memory_green_and_large !! main.spec_green
    = Some (ColorSpecification green) ∧
  specifications main.memory_green_and_large !! main.spec_large
    = Some (SizeSpecification large) ∧
  specifications main.memory_green_and_large !! main.green_and_large
    = Some (AndSpecification main.spec_green main.spec_large) ∧
  ProductFilter.by_size_and_color [main.apple; main.tree; main.house] green large
    main.memory_green_and_large
  = BetterFilter.filter 2 [main.apple; main.tree; main.house] main.green_and_large
      main.memory_green_and_large.
Proof.
  assert (specifications main.memory_green_and_large !! main.spec_green
          = Some (ColorSpecification green)) as Hfirst by (vm_compute; reflexivity).
  assert (specifications main.memory_green_and_large !! main.spec_large
          = Some (SizeSpecification large)) as Hsecond by (vm_compute; reflexivity).
  assert (specifications main.memory_green_and_large !! main.green_and_large
          = Some (AndSpecification main.spec_green main.spec_large)) as Hspec
    by (vm_compute; reflexivity).
  split; [exact Hfirst|]. split; [exact Hsecond|]. split; [exact Hspec|].
  exact (proj2 (proj2 (ProductFilter_agrees_with_BetterFilter _ _ _ _ _ _
                         Hfirst Hsecond Hspec 0 [main.apple; main.tree; main.house]))).
Defined.

(** * Further properties of the filters and specifications *)

(** ** Short circuit and destroyed operands *)

Lemma is_satisfied_obj_and_Undefined fuel first second item m :
  is_satisfied fuel first item m = Ret (true, m) →
  specifications m !! second = None →
  is_satisfied_obj fuel (AndSpecification first second) item m = Undefined.
Proof.
  intros Hfirst Hsecond. unfold is_satisfied_obj. simpl.
  unfold AndSpecification_is_satisfied. rewrite (bind_Ret _ _ _ _ _ Hfirst).
  destruct fuel as [|fuel]; [done|]. simpl.
  rewrite bind_unfold. unfold load_spec. by rewrite Hsecond.
Qed.

(** X1: the second operand of a conjunction is evaluated only when the
    first returns [true].  When the first returns [false] the conjunction
    returns [false], also when the second operand has been destroyed;
    when the first returns [true] and the second operand has been
    destroyed, the call is undefined with every sufficient fuel and never
    returns. *)
Theorem AndSpecification_short_circuit m first second item :
  (evaluates m first item false →
   evaluates_obj m (AndSpecification first second) item false) ∧
  (evaluates m first item true →
   specifications m !! second = None →
   (∃ fuel, ∀ n, fuel ≤ n →
      is_satisfied_obj n (AndSpecification first second) item m = Undefined) ∧
   ∀ b, ¬ evaluates_obj m (AndSpecification first second) item b).
Proof.
  split.
  - intros Hfirst. apply evaluates_obj_and. by exists false.
  - intros [fuel Hfirst] Hsecond. split.
    + exists fuel. intros n Hn. apply is_satisfied_obj_and_Undefined; [|done].
      by eapply is_satisfied_mono.
    + intros b [n Hn].
      pose proof (is_satisfied_obj_and_Undefined (n `max` fuel) first second
                    item m) as Hu.
      apply is_satisfied_obj_mono with (fuel' := n `max` fuel) in Hn; [|lia].
      rewrite Hu in Hn; [done| |done].
      eapply is_satisfied_mono; [|done]. lia.
Qed.

Lemma AndSpecification_short_circuit_witness :
  evaluates temporary.memory_after main.spec_green main.house false ∧
  evaluates_obj temporary.memory_after
    (AndSpecification main.spec_green temporary.other) main.house false ∧
  evaluates temporary.memory_after main.spec_green main.tree true ∧
  specifications temporary.memory_after !! temporary.other = None ∧
  ∀ b, ¬ evaluates_obj temporary.memory_after
           (AndSpecification main.spec_green temporary.other) main.tree b.
Proof.
  assert (evaluates temporary.memory_after main.spec_green main.house false)
    as Hfalse by (exists 1; vm_compute; reflexivity).
  assert (evaluates temporary.memory_after main.spec_green main.tree true)
    as Htrue by (exists 1; vm_compute; reflexivity).
  assert (specifications temporary.memory_after !! temporary.other = None)
    as Hdead by (vm_compute; reflexivity).
  destruct (AndSpecification_short_circuit temporary.memory_after
              main.spec_green temporary.other main.house) as [H1 _].
  destruct (AndSpecification_short_circuit temporary.memory_after
              main.spec_green temporary.other main.tree) as [_ H2].
  split; [exact Hfalse|]. split; [exact (H1 Hfalse)|].
  split; [exact Htrue|]. split; [exact Hdead|].
  exact (proj2 (H2 Htrue Hdead)).
Defined.

(** ** Pointers without a product *)

Lemma invalid_item_dispatch (call : ref → ptr → M bool) this item m r :
  products m !! item = None →
  (∀ spec r0, call spec item m ≠ Ret r0) →
  dispatch call this item m ≠ Ret r.
Proof.
  intros Hitem Hcall. destruct this as [c|s|first second]; simpl.
  - unfold ColorSpecification_is_satisfied. by rewrite bind_unfold, load_run, Hitem.
  - unfold SizeSpecification_is_satisfied. by rewrite bind_unfold, load_run, Hitem.
  - unfold AndSpecification_is_satisfied.
    intros (b & m1 & H1 & _)%bind_Ret_inv. by apply Hcall in H1.
Qed.

Lemma invalid_item_is_satisfied fuel spec item m r :
  products m !! item = None → is_satisfied fuel spec item m ≠ Ret r.
Proof.
  intros Hitem. revert spec r.
  induction fuel as [|fuel IH]; intros spec r; [done|]. simpl.
  intros (this & m1 & H1 & H2)%bind_Ret_inv.
  pose proof (read_only_load_spec _ _ _ _ H1) as ->.
  revert H2. by apply invalid_item_dispatch.
Qed.

Lemma filter_loop_Ret_all fuel items spec result m r :
  BetterFilter.filter_loop fuel items spec result m = Ret r →
  ∀ item, item ∈ items → ∃ b, is_satisfied fuel spec item m = Ret (b, m).
Proof.
  destruct r as [res m']. intros [Hall _]%filter_loop_Ret_inv item Hin.
  eexists. by apply Hall.
Qed.

Lemma by_color_loop_run items color0 result m :
  ProductFilter.by_color_loop items color0 result m =
  if valid_items m items
  then Ret (result ++ List.filter (color_is m color0) items, m)
  else Undefined.
Proof.
  revert result. induction items as [|i items IH]; intros result; simpl.
  - by rewrite ret_unfold, app_nil_r.
  - rewrite bind_unfold, load_run. unfold color_is at 1.
    destruct (products m !! i) as [x|] eqn:Hx; simpl.
    + rewrite IH.
      destruct (valid_items m items); [|done]. unfold push_back.
      destruct (bool_decide (color x = color0)); [|done]. by rewrite <- app_assoc.
    + done.
Qed.

Lemma by_size_loop_run items size0 result m :
  ProductFilter.by_size_loop items size0 result m =
  if valid_items m items
  then Ret (result ++ List.filter (size_is m size0) items, m)
  else Undefined.
Proof.
  revert result. induction items as [|i items IH]; intros result; simpl.
  - by rewrite ret_unfold, app_nil_r.
  - rewrite bind_unfold, load_run. unfold size_is at 1.
    destruct (products m !! i) as [x|] eqn:Hx; simpl.
    + rewrite IH.
      destruct (valid_items m items); [|done]. unfold push_back.
      destruct (bool_decide (size x = size0)); [|done]. by rewrite <- app_assoc.
    + done.
Qed.

Lemma by_size_and_color_loop_run items color0 size0 result m :
  ProductFilter.by_size_and_color_loop items color0 size0 result m =
  if valid_items m items
  then Ret (result ++
            List.filter (λ i, size_is m size0 i && color_is m color0 i) items, m)
  else Undefined.
Proof.
  revert result. induction items as [|i items IH]; intros result; simpl.
  - by rewrite ret_unfold, app_nil_r.
  - rewrite bind_unfold, size_and_color_match_run. unfold size_is at 1, color_is at 1.
    destruct (products m !! i) as [x|] eqn:Hx; simpl.
    + rewrite IH.
      destruct (valid_items m items); [|done]. unfold push_back.
      rewrite (andb_comm (bool_decide (size x = size0))).
      destruct (bool_decide (color x = color0) && bool_decide (size x = size0));
        [|done].
      by rewrite <- app_assoc.
    + done.
Qed.

Lemma valid_items_false m (items : list ptr) item :
  item ∈ items → products m !! item = None → valid_items m items = false.
Proof.
  intros Hin Hitem. apply not_true_is_false. intros Hall.
  unfold valid_items in Hall. rewrite forallb_forall in Hall.
  apply list_elem_of_In, Hall, bool_decide_eq_true in Hin as [x Hx]. congruence.
Qed.

(** X2: a pointer of the input that points to no product (a null or
    dangling pointer) is never skipped: [BetterFilter::filter] does not
    return, whatever the specification, and the three methods of
    [ProductFilter] are undefined. *)
Theorem invalid_pointer_is_undefined m (items : list ptr) item :
  item ∈ items →
  products m !! item = None →
  (∀ fuel spec r, BetterFilter.filter fuel items spec m ≠ Ret r) ∧
  (∀ color0, ProductFilter.by_color items color0 m = Undefined) ∧
  (∀ size0, ProductFilter.by_size items size0 m = Undefined) ∧
  (∀ color0 size0, ProductFilter.by_size_and_color items color0 size0 m = Undefined).
Proof.
  intros Hin Hitem. split; [|split; [|split]].
  - intros fuel spec r H.
    destruct (filter_loop_Ret_all _ _ _ _ _ _ H item Hin) as [b Hb].
    by apply invalid_item_is_satisfied in Hb.
  - intros color0. unfold ProductFilter.by_color.
    by rewrite by_color_loop_run, (valid_items_false m items item).
  - intros size0. unfold ProductFilter.by_size.
    by rewrite by_size_loop_run, (valid_items_false m items item).
  - intros color0 size0. unfold ProductFilter.by_size_and_color.
    by rewrite by_size_and_color_loop_run, (valid_items_false m items item).
Qed.

Lemma invalid_pointer_is_undefined_witness :
  0 ∈ [main.apple; 0; main.house] ∧
  products main.memory_green !! 0 = None ∧
  ProductFilter.by_color [main.apple; 0; main.house] green main.memory_green
    = Undefined.
Proof.
  assert (0 ∈ [main.apple; 0; main.house]) as Hin by (right; left).
  assert (products main.memory_green !! 0 = None) as Hnull
    by (vm_compute; reflexivity).
  split; [exact Hin|]. split; [exact Hnull|].
  exact (proj1 (proj2 (invalid_pointer_is_undefined _ _ _ Hin Hnull)) green).
Defined.

Lemma valid_items_elem_of m (items : list ptr) item :
  valid_items m items = true → item ∈ items → is_Some (products m !! item).
Proof.
  unfold valid_items. rewrite forallb_forall.
  intros Hall Hin%list_elem_of_In. by apply Hall, bool_decide_eq_true in Hin.
Qed.

(** X3: when every pointer of the input points to a product and every
    operand the specification reaches is alive, [BetterFilter::filter]
    returns: one result, a subsequence of the input, with every fuel
    from the nesting depth of the specification on. *)
Theorem filter_returns_on_valid_input depth m spec (items : list ptr) :
  operands_alive depth m spec = true →
  valid_items m items = true →
  ∃ result,
    result `sublist_of` items ∧
    ∀ fuel, depth ≤ fuel → BetterFilter.filter fuel items spec m = Ret (result, m).
Proof.
  intros Halive Hvalid. exists (List.filter (holds depth m spec) items).
  split; [apply filter_sublist|]. intros fuel Hfuel.
  unfold BetterFilter.filter.
  rewrite (filter_loop_Ret _ _ _ _ _ (holds depth m spec)); [done|].
  intros item Hin. unfold holds.
  destruct (is_satisfied_total depth m spec item Halive) as [b Hb].
  { by eapply valid_items_elem_of. }
  rewrite Hb. by eapply is_satisfied_mono.
Qed.

Lemma filter_returns_on_valid_input_witness :
  operands_alive 2 main.memory_spec4 main.spec4 = true ∧
  valid_items main.memory_spec4 [main.apple; main.tree; main.house] = true ∧
  ∃ result,
    result `sublist_of` [main.apple; main.tree; main.house] ∧
    ∀ fuel, 2 ≤ fuel →
      BetterFilter.filter fuel [main.apple; main.tree; main.house] main.spec4
        main.memory_spec4 = Ret (result, main.memory_spec4).
Proof.
  assert (operands_alive 2 main.memory_spec4 main.spec4 = true) as Halive
    by (vm_compute; reflexivity).
  assert (valid_items main.memory_spec4 [main.apple; main.tree; main.house] = true)
    as Hvalid by (vm_compute; reflexivity).
  split; [exact Halive|]. split; [exact Hvalid|].
  exact (filter_returns_on_valid_input _ _ _ _ Halive Hvalid).
Defined.

(** ** The hand-written filters, by their results *)

Lemma filter_filter_andb {A} (f g : A → bool) (l : list A) :
  List.filter g (List.filter f l) = List.filter (λ x, f x && g x) l.
Proof.
  induction l as [|x l IH]; simpl; [done|].
  destruct (f x); simpl; [|done]. destruct (g x); by rewrite IH.
Qed.

Lemma valid_items_filter m (f : ptr → bool) (items : list ptr) :
  valid_items m items = true → valid_items m (List.filter f items) = true.
Proof.
  unfold valid_items. rewrite !forallb_forall.
  intros Hall i [Hin _]%List.filter_In. by apply Hall.
Qed.

Lemma color_is_true m color0 i :
  color_is m color0 i = true ↔ ∃ x, products m !! i = Some x ∧ color x = color0.
Proof.
  unfold color_is. destruct (products m !! i) as [x|].
  - rewrite bool_decide_eq_true. split; [by exists x|by intros (? & [= <-] & ?)].
  - split; [done|by intros (? & ? & ?)].
Qed.

Lemma size_is_true m size0 i :
  size_is m size0 i = true ↔ ∃ x, products m !! i = Some x ∧ size x = size0.
Proof.
  unfold size_is. destruct (products m !! i) as [x|].
  - rewrite bool_decide_eq_true. split; [by exists x|by intros (? & [= <-] & ?)].
  - split; [done|by intros (? & ? & ?)].
Qed.

(** X9: on an input whose pointers all point to products, [by_color]
    returns, in the order of the input, exactly the pointers whose
    product has the color asked for; [by_size] does the same for the
    size, and [by_size_and_color] for both. *)
Theorem ProductFilter_selects m (items : list ptr) color0 size0 :
  valid_items m items = true →
  ∃ by_c by_s by_sc,
    ProductFilter.by_color items color0 m = Ret (by_c, m) ∧
    ProductFilter.by_size items size0 m = Ret (by_s, m) ∧
    ProductFilter.by_size_and_color items color0 size0 m = Ret (by_sc, m) ∧
    by_c `sublist_of` items ∧ by_s `sublist_of` items ∧ by_sc `sublist_of` items ∧
    ∀ i, (i ∈ by_c ↔
            i ∈ items ∧ ∃ x, products m !! i = Some x ∧ color x = color0) ∧
         (i ∈ by_s ↔
            i ∈ items ∧ ∃ x, products m !! i = Some x ∧ size x = size0) ∧
         (i ∈ by_sc ↔
            i ∈ items ∧
            ∃ x, products m !! i = Some x ∧ color x = color0 ∧ size x = size0).
Proof.
  intros Hvalid.
  exists (List.filter (color_is m color0) items),
         (List.filter (size_is m size0) items),
         (List.filter (λ i, size_is m size0 i && color_is m color0 i) items).
  unfold ProductFilter.by_color, ProductFilter.by_size,
    ProductFilter.by_size_and_color.
  rewrite by_color_loop_run, by_size_loop_run, by_size_and_color_loop_run, Hvalid.
  do 3 (split; [done|]). do 3 (split; [apply filter_sublist|]).
  intros i. rewrite !list_elem_of_In, !List.filter_In, andb_true_iff,
    color_is_true, size_is_true.
  split; [done|]. split; [done|]. split.
  - intros (Hin & (x & Hx & Hs) & (y & Hy & Hc)). split; [done|].
    exists x. rewrite Hx in Hy. injection Hy as <-. done.
  - intros (Hin & x & Hx & Hc & Hs). split; [done|]. split; by exists x.
Qed.

Lemma ProductFilter_selects_witness :
  valid_items main.memory_green [main.apple; main.tree; main.house] = true ∧
  ∃ by_c by_s by_sc,
    ProductFilter.by_color [main.apple; main.tree; main.house] green
      main.memory_green = Ret (by_c, main.memory_green) ∧
    ProductFilter.by_size [main.apple; main.tree; main.house] large
      main.memory_green = Ret (by_s, main.memory_green) ∧
    ProductFilter.by_size_and_color [main.apple; main.tree; main.house] green large
      main.memory_green = Ret (by_sc, main.memory_green).
Proof.
  assert (valid_items main.memory_green [main.apple; main.tree; main.house] = true)
    as Hvalid by (vm_compute; reflexivity).
  split; [exact Hvalid|].
  destruct (ProductFilter_selects main.memory_green
              [main.apple; main.tree; main.house] green large Hvalid)
    as (by_c & by_s & by_sc & Hc & Hs & Hsc & _).
  exists by_c, by_s, by_sc. split; [exact Hc|]. split; [exact Hs|exact Hsc].
Defined.

(** X10: [by_size_and_color] is [by_size] followed by [by_color] on its
    result, and also [by_color] followed by [by_size]: the three have
    the same outcome on every input, returned or undefined. *)
Theorem by_size_and_color_is_composition (items : list ptr) color0 size0 m :
  ProductFilter.by_size_and_color items color0 size0 m
  = (ProductFilter.by_size items size0 ≫= λ by_s,
     ProductFilter.by_color by_s color0) m ∧
  ProductFilter.by_size_and_color items color0 size0 m
  = (ProductFilter.by_color items color0 ≫= λ by_c,
     ProductFilter.by_size by_c size0) m.
Proof.
  unfold ProductFilter.by_color, ProductFilter.by_size,
    ProductFilter.by_size_and_color.
  rewrite !bind_unfold, by_color_loop_run, by_size_loop_run,
    by_size_and_color_loop_run.
  destruct (valid_items m items) eqn:Hvalid; [|done]. simpl.
  rewrite by_color_loop_run, by_size_loop_run, !valid_items_filter by done.
  simpl. rewrite !filter_filter_andb. split; [done|].
  do 2 f_equal. apply List.filter_ext. intros i. apply andb_comm.
Qed.

(** ** How calls of [BetterFilter::filter] compose *)

Lemma filters_intro_one m spec (items : list ptr) (sat : ptr → bool) :
  (∀ item, item ∈ items → evaluates m spec item (sat item)) →
  filters m items spec (List.filter sat items).
Proof.
  intros Hsat. destruct (filters_intro m spec items sat Hsat) as [fuel H].
  exists fuel. by apply H.
Qed.

Lemma filters_ext_in m (items : list ptr) spec1 spec2 result :
  (∀ item b, item ∈ items → evaluates m spec1 item b → evaluates m spec2 item b) →
  filters m items spec1 result → filters m items spec2 result.
Proof.
  intros Hext (sat & Hsat & ->)%filters_inv.
  apply filters_intro_one. intros item Hin. by apply Hext, Hsat.
Qed.

(** X4: filtering with [first] and then filtering the result with [second]
    gives what one call with the conjunction of [first] and [second]
    gives.  [second] needs to return only on the items that [first]
    accepts. *)
Theorem filter_twice_is_filter_conjunction m spec first second
    (items : list ptr) (sat1 sat2 : ptr → bool) :
  specifications m !! spec = Some (AndSpecification first second) →
  (∀ item, item ∈ items → evaluates m first item (sat1 item)) →
  (∀ item, item ∈ items → sat1 item = true → evaluates m second item (sat2 item)) →
  filters m items first (List.filter sat1 items) ∧
  filters m (List.filter sat1 items) second
    (List.filter sat2 (List.filter sat1 items)) ∧
  filters m items spec (List.filter sat2 (List.filter sat1 items)).
Proof.
  intros Hspec H1 H2. split; [by apply filters_intro_one|]. split.
  - apply filters_intro_one.
    intros item [Hin Hsat]%list_elem_of_In%List.filter_In.
    apply H2; [by apply list_elem_of_In|done].
  - rewrite filter_filter_andb. apply filters_intro_one. intros item Hin.
    apply evaluates_ref. eexists. split; [done|].
    apply evaluates_obj_and. exists (sat1 item). split; [by apply H1|].
    destruct (sat1 item) eqn:Hsat; [by apply H2|done].
Qed.

Lemma filter_twice_is_filter_conjunction_witness :
  specifications main.memory_green_and_large !! main.green_and_large
    = Some (AndSpecification main.spec_green main.spec_large) ∧
  filters main.memory_green_and_large [main.apple; main.tree; main.house]
    main.green_and_large
    (List.filter (λ item, bool_decide (2 ≤ item))
       (List.filter (λ item, bool_decide (item ≤ 2))
          [main.apple; main.tree; main.house])).
Proof.
  assert (specifications main.memory_green_and_large !! main.green_and_large
          = Some (AndSpecification main.spec_green main.spec_large)) as Hspec
    by (vm_compute; reflexivity).
  split; [exact Hspec|].
  refine (proj2 (proj2 (filter_twice_is_filter_conjunction
            main.memory_green_and_large main.green_and_large main.spec_green
            main.spec_large [main.apple; main.tree; main.house]
            (λ item, bool_decide (item ≤ 2)) (λ item, bool_decide (2 ≤ item))
            Hspec _ _))).
  - intros item Hin. exists 1. elem_of_cases Hin; vm_compute; reflexivity.
  - intros item Hin Hsat. exists 1.
    elem_of_cases Hin; [vm_compute; reflexivity..|discriminate].
Defined.

(** X5: on an input on which both operands return, the conjunction of [p]
    and [q] and the conjunction of [q] and [p] return the same booleans,
    and [bf.filter] returns the same result for both. *)
Theorem AndSpecification_commutes m p q pq qp (items : list ptr) :
  specifications m !! pq = Some (AndSpecification p q) →
  specifications m !! qp = Some (AndSpecification q p) →
  (∀ item, item ∈ items → ∃ b, evaluates m p item b) →
  (∀ item, item ∈ items → ∃ b, evaluates m q item b) →
  (∀ item b, item ∈ items → evaluates m pq item b ↔ evaluates m qp item b) ∧
  (∀ result, filters m items pq result ↔ filters m items qp result).
Proof.
  intros Hpq Hqp Hp Hq.
  assert (∀ item b, item ∈ items →
            evaluates m pq item b ↔ evaluates m qp item b) as Hiff.
  { intros item b Hin.
    destruct (Hp item Hin) as [bp Hbp], (Hq item Hin) as [bq Hbq].
    rewrite !evaluates_ref. split.
    - intros (this & Hthis & H). rewrite Hpq in Hthis. injection Hthis as <-.
      apply evaluates_obj_and in H as (bp' & Hbp' & H).
      rewrite <- (evaluates_det _ _ _ _ _ Hbp Hbp') in H.
      eexists. split; [done|]. apply evaluates_obj_and. exists bq. split; [done|].
      destruct bp, bq.
      + by rewrite (evaluates_det _ _ _ _ _ H Hbq).
      + exact (evaluates_det _ _ _ _ _ H Hbq).
      + by subst b.
      + done.
    - intros (this & Hthis & H). rewrite Hqp in Hthis. injection Hthis as <-.
      apply evaluates_obj_and in H as (bq' & Hbq' & H).
      rewrite <- (evaluates_det _ _ _ _ _ Hbq Hbq') in H.
      eexists. split; [done|]. apply evaluates_obj_and. exists bp. split; [done|].
      destruct bq, bp.
      + by rewrite (evaluates_det _ _ _ _ _ H Hbp).
      + exact (evaluates_det _ _ _ _ _ H Hbp).
      + by subst b.
      + done. }
  split; [done|].
  intros result. split; apply filters_ext_in; intros item b Hin; by apply Hiff.
Qed.

Lemma AndSpecification_commutes_witness :
  specifications swapped.memory !! nesting.pq
    = Some (AndSpecification nesting.p nesting.q) ∧
  specifications swapped.memory !! swapped.qp
    = Some (AndSpecification nesting.q nesting.p) ∧
  (∀ item, item ∈ [main.apple; main.tree; main.house] →
     ∃ b, evaluates swapped.memory nesting.p item b) ∧
  (∀ item, item ∈ [main.apple; main.tree; main.house] →
     ∃ b, evaluates swapped.memory nesting.q item b) ∧
  ∀ result,
    filters swapped.memory [main.apple; main.tree; main.house] nesting.pq result ↔
    filters swapped.memory [main.apple; main.tree; main.house] swapped.qp result.
Proof.
  assert (specifications swapped.memory !! nesting.pq
          = Some (AndSpecification nesting.p nesting.q)) as Hpq
    by (vm_compute; reflexivity).
  assert (specifications swapped.memory !! swapped.qp
          = Some (AndSpecification nesting.q nesting.p)) as Hqp
    by (vm_compute; reflexivity).
  assert (∀ item, item ∈ [main.apple; main.tree; main.house] →
            ∃ b, evaluates swapped.memory nesting.p item b) as Hp.
  { intros item Hin. elem_of_cases Hin; eexists; exists 1; vm_compute; reflexivity. }
  assert (∀ item, item ∈ [main.apple; main.tree; main.house] →
            ∃ b, evaluates swapped.memory nesting.q item b) as Hq.
  { intros item Hin. elem_of_cases Hin; eexists; exists 1; vm_compute; reflexivity. }
  split; [exact Hpq|]. split; [exact Hqp|]. split; [exact Hp|]. split; [exact Hq|].
  exact (proj2 (AndSpecification_commutes _ _ _ _ _ _ Hpq Hqp Hp Hq)).
Defined.

(** X6: the conjunction of a specification with itself returns what the
    specification returns, and [bf.filter] returns the same result for
    both. *)
Theorem AndSpecification_idempotent m p pp :
  specifications m !! pp = Some (AndSpecification p p) →
  (∀ item b, evaluates m pp item b ↔ evaluates m p item b) ∧
  (∀ items result, filters m items pp result ↔ filters m items p result).
Proof.
  intros Hpp.
  assert (∀ item b, evaluates m pp item b ↔ evaluates m p item b) as Hiff.
  { intros item b. rewrite (evaluates_ref m pp). split.
    - intros (this & Hthis & H). rewrite Hpp in Hthis. injection Hthis as <-.
      apply evaluates_obj_and in H as (bp & Hbp & H).
      destruct bp; [done|by subst b].
    - intros H. eexists. split; [done|]. apply evaluates_obj_and.
      exists b. split; [done|by destruct b]. }
  split; [done|].
  intros items result. split; apply filters_ext; intros item b; by apply Hiff.
Qed.

Lemma AndSpecification_idempotent_witness :
  specifications swapped.memory !! swapped.pp
    = Some (AndSpecification nesting.p nesting.p) ∧
  (evaluates swapped.memory swapped.pp main.tree true ↔
   evaluates swapped.memory nesting.p main.tree true).
Proof.
  assert (specifications swapped.memory !! swapped.pp
          = Some (AndSpecification nesting.p nesting.p)) as Hpp
    by (vm_compute; reflexivity).
  split; [exact Hpp|].
  exact (proj1 (AndSpecification_idempotent _ _ _ Hpp) main.tree true).
Defined.

(** X7: filtering a concatenation is filtering its two parts and
    concatenating the results: the call returns on [items1 ++ items2]
    exactly when it returns on both parts. *)
Theorem filter_app m spec (items1 items2 result : list ptr) :
  filters m (items1 ++ items2) spec result ↔
  ∃ result1 result2,
    filters m items1 spec result1 ∧ filters m items2 spec result2 ∧
    result = result1 ++ result2.
Proof.
  split.
  - intros (sat & Hsat & ->)%filters_inv.
    exists (List.filter sat items1), (List.filter sat items2).
    split; [|split].
    + apply filters_intro_one. intros item Hin. apply Hsat, elem_of_app. by left.
    + apply filters_intro_one. intros item Hin. apply Hsat, elem_of_app. by right.
    + apply List.filter_app.
  - intros (result1 & result2 & H1 & H2 & ->).
    apply filters_inv in H1 as (sat1 & Hsat1 & ->).
    apply filters_inv in H2 as (sat2 & Hsat2 & ->).
    pose (sat := λ item, if decide (item ∈ items1) then sat1 item else sat2 item).
    assert (List.filter sat1 items1 = List.filter sat items1) as ->.
    { apply List.filter_ext_in. intros item Hin%list_elem_of_In.
      unfold sat. by rewrite decide_True. }
    assert (List.filter sat2 items2 = List.filter sat items2) as ->.
    { apply List.filter_ext_in. intros item Hin%list_elem_of_In.
      unfold sat. destruct (decide (item ∈ items1)) as [Hin1|]; [|done].
      eapply evaluates_det; [by apply Hsat2|by apply Hsat1]. }
    rewrite <- List.filter_app. apply filters_intro_one.
    intros item [Hin|Hin]%elem_of_app; unfold sat.
    + rewrite decide_True by done. by apply Hsat1.
    + destruct (decide (item ∈ items1)); [by apply Hsat1|by apply Hsat2].
Qed.

(** X8: filtering a result again with the same specification returns it
    unchanged. *)
Theorem filter_idempotent m spec (items result : list ptr) :
  filters m items spec result → filters m result spec result.
Proof.
  intros (sat & Hsat & ->)%filters_inv.
  rewrite <- (filter_all_true sat (List.filter sat items)) at 2.
  - apply filters_intro_one.
    intros item [Hin _]%list_elem_of_In%List.filter_In.
    by apply Hsat, list_elem_of_In.
  - by intros item [_ H]%list_elem_of_In%List.filter_In.
Qed.

Lemma filter_idempotent_witness :
  filters main.memory_green [main.apple; main.tree; main.house] main.spec_green
    [main.apple; main.tree] ∧
  filters main.memory_green [main.apple; main.tree] main.spec_green
    [main.apple; main.tree].
Proof.
  assert (filters main.memory_green [main.apple; main.tree; main.house]
            main.spec_green [main.apple; main.tree]) as H
    by (exists 1; vm_compute; reflexivity).
  split; [exact H|]. exact (filter_idempotent _ _ _ _ H).
Defined.

(** * The rectangles of the Liskov example *)

Lemma call_setters_square this calls d :
  Liskov.dynamic_type this = Liskov.Square_class →
  Liskov.width this = d →
  Liskov.height this = d →
  Liskov.call_setters this calls
  = Liskov.mkRectangle Liskov.Square_class (Liskov.last_argument calls d)
      (Liskov.last_argument calls d).
Proof.
  revert this d. induction calls as [|c calls IH]; intros this d Hdyn Hw Hh.
  - destruct this as [dyn w h]. simpl in *. by subst.
  - unfold Liskov.call_setters, Liskov.last_argument. simpl.
    apply IH; destruct c; simpl;
      unfold Liskov.set_width, Liskov.set_height; by rewrite Hdyn.
Qed.

(** X11: a [Square] stays a square: after any sequence of [set_width] and
    [set_height] calls its width and height are equal, both the argument
    of the last call, whichever setter that was (the side it was
    constructed with when there was no call). *)
Theorem Square_setters_keep_sides_equal size calls :
  let sq := Liskov.call_setters (Liskov.Square_new size) calls in
  Liskov.dynamic_type sq = Liskov.Square_class ∧
  Liskov.get_width sq = Liskov.get_height sq ∧
  Liskov.get_width sq = Liskov.last_argument calls size ∧
  Liskov.area sq
  = Liskov.int_mul (Liskov.last_argument calls size) (Liskov.last_argument calls size).
Proof.
  simpl. by rewrite (call_setters_square _ _ size).
Qed.

Lemma call_setters_rectangle this calls :
  Liskov.dynamic_type this = Liskov.Rectangle_class →
  Liskov.call_setters this calls
  = Liskov.mkRectangle Liskov.Rectangle_class
      (Liskov.last_width calls (Liskov.width this))
      (Liskov.last_height calls (Liskov.height this)).
Proof.
  revert this. induction calls as [|c calls IH]; intros this Hdyn.
  - destruct this as [dyn w h]. simpl in *. by subst.
  - unfold Liskov.call_setters, Liskov.last_width, Liskov.last_height in *.
    simpl. rewrite IH;
      destruct c; simpl; unfold Liskov.set_width, Liskov.set_height;
      by rewrite Hdyn.
Qed.

(** X12: on a plain [Rectangle] the two setters do not interfere: after any
    sequence of calls the width is the argument of the last [set_width]
    and the height the argument of the last [set_height] (the
    constructor's values where there was no such call). *)
Theorem Rectangle_setters_are_independent w h calls :
  let r := Liskov.call_setters (Liskov.Rectangle_new w h) calls in
  Liskov.dynamic_type r = Liskov.Rectangle_class ∧
  Liskov.get_width r = Liskov.last_width calls w ∧
  Liskov.get_height r = Liskov.last_height calls h ∧
  Liskov.area r
  = Liskov.int_mul (Liskov.last_width calls w) (Liskov.last_height calls h).
Proof.
  simpl. by rewrite call_setters_rectangle.
Qed.

(** X13: what [process] does to the object it is given.  The call is
    undefined exactly when ten times the width leaves the range of
    [int].  Otherwise the height becomes 10; for a [Rectangle] the width
    is kept and the printed area equals the expected one; for a [Square]
    the width becomes 10 as well, the printed area is 100, and it equals
    the expected one only when the side was 10. *)
Theorem process_expectation r :
  (Liskov.process r = None ↔ Liskov.in_int (Liskov.width r * 10) = false) ∧
  ∀ r' out,
    Liskov.process r = Some (r', out) →
    Liskov.height r' = 10%Z ∧
    match Liskov.dynamic_type r with
    | Liskov.Rectangle_class =>
        Liskov.width r' = Liskov.width r ∧
        out = Liskov.report (Liskov.width r * 10) (Liskov.width r * 10)
    | Liskov.Square_class =>
        Liskov.width r' = 10%Z ∧
        out = Liskov.report (Liskov.width r * 10) 100 ∧
        ((Liskov.width r * 10 = 100)%Z ↔ Liskov.width r = 10%Z)
    end.
Proof.
  destruct r as [dyn w h]. unfold Liskov.process, Liskov.area, Liskov.int_mul.
  simpl. destruct (Liskov.in_int (w * 10)) eqn:Hin; simpl.
  - destruct dyn; simpl.
    + rewrite Hin. simpl. split; [done|].
      intros r' out [= <- <-]. done.
    + split; [done|]. intros r' out [= <- <-]. simpl.
      repeat split; lia.
  - split; [done|]. intros r' out H. discriminate.
Qed.

Lemma process_expectation_witness :
  Liskov.process (Liskov.Square_new 5)
    = Some (Liskov.Square_new 10, Liskov.report 50 100) ∧
  Liskov.height (Liskov.Square_new 10) = 10%Z ∧
  Liskov.width (Liskov.Square_new 10) = 10%Z.
Proof.
  assert (Liskov.process (Liskov.Square_new 5)
          = Some (Liskov.Square_new 10, Liskov.report 50 100)) as H
    by (vm_compute; reflexivity).
  split; [exact H|].
  destruct (proj2 (process_expectation (Liskov.Square_new 5)) _ _ H)
    as (Hh & Hw & _).
  split; [exact Hh|exact Hw].
Defined.

(** * The relationships of the dependency inversion example *)

Section Relationships.
Import DependencyInversion.






Lemma findAllChildrenOf_loop_acc (relations : Relationships) i name0 result :
  findAllChildrenOf_loop relations i name0 result
  = result ++ findAllChildrenOf_loop relations i name0 [].
Proof.
  revert i result.
  induction relations as [|[[first rel] second] relations IH]; intros i result; simpl.
  - by rewrite app_nil_r.
  - rewrite IH. symmetry. rewrite IH. symmetry.
    destruct (_ && _); [|done]. unfold push_back. by rewrite <- !app_assoc.
Qed.

Lemma findAllChildrenOf_loop_spec (relations : Relationships) i name0 p :
  p ∈ findAllChildrenOf_loop relations i name0 [] ↔
  ∃ first second,
    i ≤ p ∧ relations !! (p - i) = Some (first, parent, second) ∧ name first = name0.
Proof.
  revert i. induction relations as [|[[first rel] second] relations IH]; intros i.
  - simpl. split; [by intros ?%elem_of_nil|by intros (? & ? & ? & ? & ?)].
  - simpl. rewrite findAllChildrenOf_loop_acc, elem_of_app, IH. split.
    + intros [Hp|(f & s & Hle & Hl & Hn)].
      * destruct (bool_decide (name first = name0)) eqn:Hname; [|by apply elem_of_nil in Hp].
        destruct (bool_decide (rel = parent)) eqn:Hrel; [|by apply elem_of_nil in Hp].
        apply bool_decide_eq_true in Hname, Hrel. subst rel.
        apply list_elem_of_singleton in Hp as ->.
        exists first, second. rewrite Nat.sub_diag. done.
      * exists f, s. split; [lia|]. split; [|done].
        replace (p - i) with (S (p - S i)) by lia. done.
    + intros (f & s & Hle & Hl & Hn).
      destruct (decide (p = i)) as [->|Hne].
      * left. rewrite Nat.sub_diag in Hl. simpl in Hl. injection Hl as -> -> ->.
        rewrite !bool_decide_true by done. simpl. by left.
      * right. exists f, s. split; [lia|]. split; [|done].
        replace (p - i) with (S (p - S i)) in Hl by lia. done.
Qed.

Lemma findAllChildrenOf_loop_sorted (relations : Relationships) i name0 :
  StronglySorted lt (findAllChildrenOf_loop relations i name0 []) ∧
  Forall (λ p, i ≤ p) (findAllChildrenOf_loop relations i name0 []).
Proof.
  revert i. induction relations as [|[[first rel] second] relations IH]; intros i.
  - simpl. split; constructor.
  - simpl. rewrite findAllChildrenOf_loop_acc.
    destruct (IH (S i)) as [Hsorted Hge].
    destruct (_ && _); simpl.
    + split.
      * constructor; [done|]. eapply Forall_impl; [done|]. simpl. lia.
      * constructor; [done|]. eapply Forall_impl; [done|]. simpl. lia.
    + split; [done|]. eapply Forall_impl; [done|]. simpl. lia.
Qed.

Lemma findAllChildrenOf_spec (relations : Relationships) name0 p :
  p ∈ findAllChildrenOf relations name0 ↔
  ∃ first second,
    relations !! p = Some (first, parent, second) ∧ name first = name0.
Proof.
  unfold findAllChildrenOf. rewrite findAllChildrenOf_loop_spec.
  rewrite Nat.sub_0_r. split.
  - intros (f & s & _ & H1 & H2). by exists f, s.
  - intros (f & s & H1 & H2). exists f, s. split; [lia|done].
Qed.


(** X15: [findAllChildrenOf(name)] returns pointers to exactly the second
    persons of the tuples whose first person has that name and whose
    relation is [parent]; every pointer is into the vector, and the
    pointers come in the order of the vector, none twice. *)
Theorem findAllChildrenOf_finds (relations : Relationships) name0 :
  (∀ p, p ∈ findAllChildrenOf relations name0 ↔
        ∃ first second,
          relations !! p = Some (first, parent, second) ∧ name first = name0) ∧
  (∀ p, p ∈ findAllChildrenOf relations name0 → is_Some (deref relations p)) ∧
  StronglySorted lt (findAllChildrenOf relations name0).
Proof.
  split; [intros p; apply findAllChildrenOf_spec|]. split.
  - intros p (f & s & Hl & _)%findAllChildrenOf_spec.
    unfold deref. rewrite Hl. by eexists.
  - apply findAllChildrenOf_loop_sorted.
Qed.

Lemma findAllChildrenOf_finds_witness :
  4 ∈ findAllChildrenOf main_relationships "Greg" ∧
  is_Some (deref main_relationships 4).
Proof.
  assert (4 ∈ findAllChildrenOf main_relationships "Greg") as Hin
    by (vm_compute; left).
  split; [exact Hin|].
  exact (proj1 (proj2 (findAllChildrenOf_finds main_relationships "Greg")) 4 Hin).
Defined.







End Relationships.

(** * The journal of the single responsibility example *)

Section Journal.
Import SingleResponsibility.

Lemma add_entry_in_range count this entry :
  (1 ≤ count)%Z → (count + 1 ≤ Liskov.INT_MAX)%Z →
  add_entry count this entry
  = Some ((count + 1)%Z,
          mkJournal (title this)
            (entries this ++ [pretty count +:+ ": " +:+ entry])).
Proof.
  intros Hlo Hhi. unfold add_entry, Liskov.in_int.
  rewrite andb_true_intro; [done|].
  unfold Liskov.INT_MIN, Liskov.INT_MAX in *. split; apply Z.leb_le; lia.
Qed.

(** X17: the counter of [add_entry] is one static variable for all journals.
    Over any sequence of calls, on any journals, the calls are numbered
    consecutively from the counter's value in the order they are made:
    each journal keeps its earlier entries and gets its new ones
    appended, each with the number of its call in the whole sequence;
    its title is unchanged; the counter ends increased by the number of
    calls.  This needs the counter to stay within [int]. *)
Theorem add_entry_numbers_are_shared count (journals : gmap nat Journal)
    (calls : list (nat * string)) :
  (1 ≤ count)%Z →
  (count + Z.of_nat (length calls) ≤ Liskov.INT_MAX)%Z →
  (∀ j entry, (j, entry) ∈ calls → is_Some (journals !! j)) →
  ∃ journals',
    add_entries count journals calls
    = Some ((count + Z.of_nat (length calls))%Z, journals') ∧
    ∀ j, journals' !! j
         = (λ this, mkJournal (title this)
                      (entries this ++ numbered count calls j))
           <$> journals !! j.
Proof.
  revert count journals.
  induction calls as [|[j0 entry] calls IH]; intros count journals Hlo Hhi Hin.
  - exists journals. split; [simpl; do 2 f_equal; lia|].
    intros j. simpl. destruct (journals !! j) as [[t es]|]; simpl; [|done].
    by rewrite app_nil_r.
  - destruct (Hin j0 entry) as [this Hthis]; [left|].
    simpl length in Hhi. simpl. rewrite Hthis. simpl.
    rewrite add_entry_in_range by lia. simpl.
    destruct (IH (count + 1)%Z
                (<[j0:=mkJournal (title this)
                         (entries this ++ [pretty count +:+ ": " +:+ entry])]>
                   journals)) as (journals' & Hrun & Hlook); [lia|lia| |].
    { intros j e Hje. apply lookup_insert_is_Some'. right. apply (Hin j e). by right. }
    exists journals'. split; [rewrite Hrun; do 2 f_equal; lia|].
    intros j. rewrite Hlook. destruct (decide (j0 = j)) as [->|Hne].
    + rewrite lookup_insert_eq, Hthis. simpl.
      rewrite bool_decide_true by done. by rewrite <- app_assoc.
    + rewrite lookup_insert_ne by done. by rewrite bool_decide_false.
Qed.

Lemma add_entry_numbers_are_shared_witness :
  (1 ≤ count_initial)%Z ∧
  (count_initial + Z.of_nat (length [(0, "a"); (1, "b"); (0, "c")]) ≤ Liskov.INT_MAX)%Z ∧
  ∃ journals',
    add_entries count_initial
      {[ 0 := Journal_new "first"; 1 := Journal_new "second" ]}
      [(0, "a"); (1, "b"); (0, "c")]
    = Some (4%Z, journals') ∧
    journals' !! 0 = Some (mkJournal None ["1: a"; "3: c"]) ∧
    journals' !! 1 = Some (mkJournal None ["2: b"]).
Proof.
  assert (1 ≤ count_initial)%Z as Hlo by (vm_compute; discriminate).
  assert (count_initial + Z.of_nat (length [(0, "a"); (1, "b"); (0, "c")])
          ≤ Liskov.INT_MAX)%Z as Hhi by (vm_compute; discriminate).
  split; [exact Hlo|]. split; [exact Hhi|].
  destruct (add_entry_numbers_are_shared count_initial
              {[ 0 := Journal_new "first"; 1 := Journal_new "second" ]}
              [(0, "a"); (1, "b"); (0, "c")] Hlo Hhi) as (journals' & Hrun & Hlook).
  { intros j entry Hin.
    repeat (apply elem_of_cons in Hin as [[= -> ->]|Hin];
            [vm_compute; by eexists|]).
    by apply elem_of_nil in Hin. }
  exists journals'. split; [exact Hrun|].
  split; rewrite Hlook; vm_compute; reflexivity.
Defined.
End Journal.
